(** * TL Quotes Relay: quote normalisation, store, broadcast and watchdog

    A shallow embedding of [server.js].  JavaScript values are an
    inductive type, numbers are IEEE-754 binary64 values
    ([spec_float] at precision 53), the module-level [quotes] Map is a
    [gmap], the [subs] Set is a list in insertion order, and every
    handler is a computation in a small state monad over the
    module-level variables and the observable effects (calls of
    [Date.now], [res.write], [setInterval], [process.exit]).  A
    coercion that can throw gives a completion, a value or the thrown
    exception, and so does a handler in which such a coercion is
    made; what a handler throws goes where the code sends it: to the
    handler of [uncaughtException] for a listener of the socket, to
    the router of the framework for a route. *)

From Stdlib Require Import ZArith String Ascii List Bool.
From Stdlib Require Import Floats.SpecFloat.
From stdpp Require Import base option list gmap sets strings pretty.

Set Warnings "-register-all".

Local Open Scope string_scope.
Local Open Scope list_scope.

(** ** JavaScript numbers *)

Module Num.

Abbreviation num := spec_float.

Definition prec : Z := 53.
Definition emax : Z := 1024.

Definition NaN : num := S754_nan.
Definition zero : num := S754_zero false.

(** The double nearest to an integer, in canonical form. *)
Definition of_Z (z : Z) : num := binary_normalize prec emax z 0 false.

Definition one : num := of_Z 1.

(** [Number.isFinite(x)] for an [x] that is a number. *)
Definition isFinite (x : num) : bool :=
  match x with
  | S754_zero _ | S754_finite _ _ _ => true
  | S754_infinity _ | S754_nan => false
  end.

(** ToBoolean on a number: [+0], [-0] and [NaN] are falsy. *)
Definition truthy (x : num) : bool :=
  match x with
  | S754_zero _ | S754_nan => false
  | S754_infinity _ | S754_finite _ _ _ => true
  end.

(** [x - y] and [x > y]. *)
Definition sub (x y : num) : num := SFsub prec emax x y.
Definition gt (x y : num) : bool := SFltb y x.

(** [x || y] on numbers. *)
Definition or_else (x y : num) : num := if truthy x then x else y.

End Num.

Import Num.

(** ** JavaScript strings

    A [string] is the sequence of code units of a JavaScript string;
    the model covers code units below 256. *)

Module JsString.

(** White space as [String.prototype.trim] sees it, among the code
    units below 256: TAB, LF, VT, FF, CR, SPACE and NBSP. *)
Definition is_ws (c : ascii) : bool :=
  let k := nat_of_ascii c in
  ((9 <=? k)%nat && (k <=? 13)%nat) || (k =? 32)%nat || (k =? 160)%nat.

Fixpoint trimStart (s : string) : string :=
  match s with
  | String c r => if is_ws c then trimStart r else s
  | EmptyString => EmptyString
  end.

Fixpoint trimEnd (s : string) : string :=
  match s with
  | EmptyString => EmptyString
  | String c r =>
      match trimEnd r with
      | EmptyString => if is_ws c then EmptyString else String c EmptyString
      | r' => String c r'
      end
  end.

Definition trim (s : string) : string := trimEnd (trimStart s).

(** [s.split(sep)] for a one-character separator. *)
Fixpoint split (sep : ascii) (s : string) : list string :=
  match s with
  | EmptyString => [EmptyString]
  | String c r =>
      if Ascii.eqb c sep then EmptyString :: split sep r
      else match split sep r with
           | tok :: toks => String c tok :: toks
           | [] => [String c EmptyString]
           end
  end.

(** [xs.join(sep)] on an array of strings. *)
Fixpoint join (sep : string) (xs : list string) : string :=
  match xs with
  | [] => EmptyString
  | [x] => x
  | x :: rest => x ++ sep ++ join sep rest
  end.

(** [c.toUpperCase()] on the letters a to z.  No other code unit below
    256 has an upper case that holds one of the letters of QUOTE, TICK,
    PRIC or MARKET, the only words [toUpperCase] is searched for, so the
    other code units are left as they are. *)
Definition upper (c : ascii) : ascii :=
  let k := nat_of_ascii c in
  if ((97 <=? k)%nat && (k <=? 122)%nat)%bool then ascii_of_nat (k - 32) else c.

Fixpoint toUpperCase (s : string) : string :=
  match s with
  | EmptyString => EmptyString
  | String c r => String (upper c) (toUpperCase r)
  end.

Fixpoint startsWith (w s : string) : bool :=
  match w, s with
  | EmptyString, _ => true
  | String a w', String b s' => Ascii.eqb a b && startsWith w' s'
  | String _ _, EmptyString => false
  end.

(** [s.includes(w)]. *)
Fixpoint includes (w s : string) : bool :=
  startsWith w s ||
  match s with
  | EmptyString => false
  | String _ r => includes w r
  end.

End JsString.

(** ** JavaScript values, as far as JSON payloads and query strings go *)

Inductive JsVal : Type :=
| JUndef
| JNull
| JBool (b : bool)
| JNum (x : num)
| JStr (s : string)
| JArr (items : list JsVal)
| JObj (fields : list (string * JsVal)).

(** ToBoolean: the tests of [||], [&&], [!] and [if]. *)
Definition truthy (v : JsVal) : bool :=
  match v with
  | JUndef | JNull => false
  | JBool b => b
  | JNum x => Num.truthy x
  | JStr s => negb (String.eqb s "")
  | JArr _ | JObj _ => true
  end.

(** [a || b]. *)
Definition js_or (a b : JsVal) : JsVal := if truthy a then a else b.

(** The first field with the given key, a JavaScript object having one
    value per key. *)
Fixpoint assoc (k : string) (fs : list (string * JsVal)) : option JsVal :=
  match fs with
  | [] => None
  | (k', v) :: rest => if String.eqb k k' then Some v else assoc k rest
  end.

(** The array index a property key denotes, if it is the canonical
    decimal form of an index below [n]. *)
Definition index_key (k : string) (n : nat) : option nat :=
  List.find (fun i => String.eqb k (pretty i)) (seq 0 n).

(** [Object.prototype.hasOwnProperty.call(cur, k)] together with
    [cur[k]] when it holds; [cur] is a value for which ToObject is
    defined (not [undefined] or [null]). *)
Definition own_property (cur : JsVal) (k : string) : option JsVal :=
  match cur with
  | JObj fs => assoc k fs
  | JArr xs =>
      if String.eqb k "length" then Some (JNum (of_Z (Z.of_nat (length xs))))
      else i ← index_key k (length xs); xs !! i
  | JStr s =>
      if String.eqb k "length" then Some (JNum (of_Z (Z.of_nat (String.length s))))
      else i ← index_key k (String.length s);
           c ← String.get i s; Some (JStr (String c EmptyString))
  | JUndef | JNull | JBool _ | JNum _ => None
  end.

(** [v?.k] for a key that no built-in prototype defines ([quote],
    [data], [payload], [type]). *)
Definition opt_member (v : JsVal) (k : string) : JsVal :=
  match v with
  | JUndef | JNull => JUndef
  | _ => default JUndef (own_property v k)
  end.

(** *** Completions *)

(** The exceptions JSON values can raise in the relay: the language
    raises [TypeError] when a value has no primitive to be converted
    to, and when what is called is not a function. *)
Inductive Exn : Type := TypeError.

(** The completion of an evaluation: a value, or a thrown exception. *)
Inductive Completion (A : Type) : Type :=
| Normal (a : A)
| Throw (e : Exn).

Arguments Normal {A} a.
Arguments Throw {A} e.

Definition and_then {A B} (c : Completion A) (k : A -> Completion B) : Completion B :=
  match c with
  | Normal a => k a
  | Throw e => Throw e
  end.

Declare Scope completion_scope.
Delimit Scope completion_scope with completion.
Notation "'let?' x ':=' c 'in' k" := (and_then c (fun x => k))
  (at level 10, x name, c at level 100, k at level 200) : completion_scope.
Local Open Scope completion_scope.

(** ** The relay *)

(** The stored record of one symbol: [{ bid, ask, last, time }], a
    price field being a number or [undefined]. *)
Record Quote : Type := mkQuote {
  bid : option num;
  ask : option num;
  last : option num;
  time : num;
}.

(** The second argument of [touchQuote]; each field is a number or
    [undefined]. *)
Record Patch : Type := mkPatch {
  p_bid : option num;
  p_ask : option num;
  p_last : option num;
  p_time : option num;
}.

(** What is sent on a response, before [JSON.stringify] and the
    event-stream framing turn it into text: the frames of the stream
    route, and the bodies of [res.status(401).json(..)] and of
    [res.json(..)] of the state route. *)
Inductive Frame : Type :=
| Hello (ok : bool) (env : string)
| SnapshotAll (serverTime : num) (all : gmap string Quote)
| Update (serverTime : num) (symbol : string) (quote : Quote)
| Ping
| Unauthorized
| StateJson (serverTime : num) (count : nat) (state_quotes : gmap string Quote).

(** An entry of [subs]: [{ res, filter, ping }].  The response object
    is known by a handle, which is also the identity of the entry. *)
Record Sub : Type := mkSub {
  res : nat;
  filter : gset string;
  ping : nat;
}.

(** The outcome of one [res.write(chunk)] with a string chunk.  The
    call does not raise: when the socket of the response is gone the
    chunk is discarded, and the relay ignores what the call returns. *)
Inductive Outcome : Type := Sent | Lost.

Record Write : Type := mkWrite {
  w_res : nat;
  w_frame : Frame;
  w_outcome : Outcome;
}.

Record Config : Type := mkConfig {
  TYPE : string;
  HEARTBEAT_MS : num;
  STALE_MS : num;
  READ_TOKEN : string;
}.

(** The module-level variables, followed by the part of the outside
    world the handlers act on. *)
Record State : Type := mkState {
  quotes : gmap string Quote;
  subs : list Sub;
  lastBrandEventAt : num;
  lastConnectError : JsVal;
  (* outside world *)
  ticks : nat;             (* calls of Date.now() so far *)
  gone : gset nat;         (* responses whose socket is gone *)
  wire : list Write;       (* calls of res.write, oldest first *)
  timers : gset nat;       (* live setInterval handles *)
  next_timer : nat;
  exited : option Z;       (* process.exit(code) *)
}.

(** *** A state monad for the handlers *)

Definition M (A : Type) : Type := State -> A * State.

Definition ret {A} (a : A) : M A := fun st => (a, st).
Definition bind {A B} (m : M A) (k : A -> M B) : M B :=
  fun st => let '(a, st') := m st in k a st'.
Definition gets {A} (f : State -> A) : M A := fun st => (f st, st).
Definition modify (f : State -> State) : M unit := fun st => (tt, f st).
Definition exec {A} (m : M A) (st : State) : State := snd (m st).
Definition eval {A} (m : M A) (st : State) : A := fst (m st).

Declare Scope relay_scope.
Delimit Scope relay_scope with relay.
Notation "'let*' x ':=' m 'in' k" := (bind m (fun x => k))
  (at level 10, x name, m at level 100, k at level 200) : relay_scope.
Notation "m ';;' k" := (bind m (fun _ => k))
  (at level 100, k at level 200, right associativity) : relay_scope.
Local Open Scope relay_scope.

(** Handlers that can throw: the state reached when the exception is
    thrown is kept, and what follows is not run. *)
Definition try_bind {A B} (m : M (Completion A)) (k : A -> M (Completion B))
  : M (Completion B) :=
  let* c := m in
  match c with
  | Normal a => k a
  | Throw e => ret (Throw e)
  end.

Definition lift {A} (m : M A) : M (Completion A) :=
  let* a := m in ret (Normal a).

(** [return;] *)
Definition finish : M (Completion unit) := ret (Normal tt).

Notation "'let!' x ':=' m 'in' k" := (try_bind m (fun x => k))
  (at level 10, x name, m at level 100, k at level 200) : relay_scope.

(** [for (const x of xs) body(x)]. *)
Fixpoint for_of {A} (xs : list A) (body : A -> M unit) : M unit :=
  match xs with
  | [] => ret tt
  | x :: rest => body x;; for_of rest body
  end.

Definition set_quotes (f : gmap string Quote -> gmap string Quote) (st : State) : State :=
  mkState (f (quotes st)) (subs st) (lastBrandEventAt st) (lastConnectError st)
          (ticks st) (gone st) (wire st) (timers st) (next_timer st) (exited st).
Definition set_subs (f : list Sub -> list Sub) (st : State) : State :=
  mkState (quotes st) (f (subs st)) (lastBrandEventAt st) (lastConnectError st)
          (ticks st) (gone st) (wire st) (timers st) (next_timer st) (exited st).
Definition set_lastBrandEventAt (t : num) (st : State) : State :=
  mkState (quotes st) (subs st) t (lastConnectError st)
          (ticks st) (gone st) (wire st) (timers st) (next_timer st) (exited st).
Definition set_ticks (n : nat) (st : State) : State :=
  mkState (quotes st) (subs st) (lastBrandEventAt st) (lastConnectError st)
          n (gone st) (wire st) (timers st) (next_timer st) (exited st).
Definition set_wire (f : list Write -> list Write) (st : State) : State :=
  mkState (quotes st) (subs st) (lastBrandEventAt st) (lastConnectError st)
          (ticks st) (gone st) (f (wire st)) (timers st) (next_timer st) (exited st).
Definition set_timers (f : gset nat -> gset nat) (n : nat) (st : State) : State :=
  mkState (quotes st) (subs st) (lastBrandEventAt st) (lastConnectError st)
          (ticks st) (gone st) (wire st) (f (timers st)) n (exited st).
Definition set_lastConnectError (v : JsVal) (st : State) : State :=
  mkState (quotes st) (subs st) (lastBrandEventAt st) v
          (ticks st) (gone st) (wire st) (timers st) (next_timer st) (exited st).
Definition set_exited (c : Z) (st : State) : State :=
  mkState (quotes st) (subs st) (lastBrandEventAt st) (lastConnectError st)
          (ticks st) (gone st) (wire st) (timers st) (next_timer st) (Some c).

(** Built-ins of the language the relay calls, and the values the
    process is started with. *)
Class Runtime : Type := mkRuntime {
  StringToNumber : string -> num;   (* ToNumber on a string *)
  NumberToString : num -> string;   (* ToString on a number *)
  wall : nat -> num;                (* the n-th reading of Date.now() *)
  cfg : Config;
}.

Section Relay.

Context `{RT : Runtime}.

(** *** Coercions *)

(** [String(v)], and [v.toString()] for a [v] other than [undefined]
    and [null].  An array is joined with commas, as by [join(',')],
    [undefined] and [null] elements giving the empty string and the
    others their own string, left to right.  A plain object goes to
    [toString], then [valueOf]: when it has no own [toString] it
    inherits the one that answers [[object Object]]; when it has one,
    that is a JSON value and no function, the inherited [valueOf]
    answers the object itself, and [TypeError] is thrown. *)
Fixpoint ToString (v : JsVal) : Completion string :=
  match v with
  | JUndef => Normal "undefined"
  | JNull => Normal "null"
  | JBool b => Normal (if b then "true" else "false")
  | JNum x => Normal (NumberToString x)
  | JStr s => Normal s
  | JArr xs =>
      let? parts :=
        (fix each (xs : list JsVal) : Completion (list string) :=
           match xs with
           | [] => Normal []
           | e :: rest =>
               let? s := match e with
                         | JUndef | JNull => Normal ""
                         | _ => ToString e
                         end in
               let? ss := each rest in
               Normal (s :: ss)
           end) xs in
      Normal (JsString.join "," parts)
  | JObj fs =>
      match assoc "toString" fs with
      | Some _ => Throw TypeError
      | None => Normal "[object Object]"
      end
  end.

(** [Number(v)]; arrays and plain objects go through [valueOf], which
    answers the object itself, and then through their string, thrown
    exception included. *)
Definition Number (v : JsVal) : Completion num :=
  match v with
  | JUndef => Normal NaN
  | JNull => Normal zero
  | JBool b => Normal (if b then one else zero)
  | JNum x => Normal x
  | JStr s => Normal (StringToNumber s)
  | JArr _ | JObj _ => let? s := ToString v in Normal (StringToNumber s)
  end.

(** *** Helpers *)

Definition n (v : JsVal) : Completion num :=
  let? x := Number v in Normal (if isFinite x then x else NaN).

(** The inner loop of [first]: follow the parts of one path. *)
Fixpoint walk (cur : JsVal) (parts : list string) : JsVal :=
  match parts with
  | [] => cur
  | k :: rest =>
      if truthy cur then
        match own_property cur k with
        | Some v => walk v rest
        | None => JUndef
        end
      else JUndef
  end.

(** [cur !== undefined && cur !== null && cur !== ''] *)
Definition present (cur : JsVal) : bool :=
  match cur with
  | JUndef | JNull => false
  | JStr s => negb (String.eqb s "")
  | _ => true
  end.

Fixpoint first (obj : JsVal) (paths : list string) : JsVal :=
  match paths with
  | [] => JUndef
  | p :: rest =>
      let cur := walk obj (JsString.split "." p) in
      if present cur then cur else first obj rest
  end.

(** [Array.isArray(q)] and [q.join(',')]. *)
Definition isArray (q : JsVal) : bool :=
  match q with JArr _ => true | _ => false end.

Definition parseSymbolsParam (q : JsVal) : Completion (gset string) :=
  let? q := (if isArray q then let? s := ToString q in Normal (JStr s)
             else Normal q) in
  let? text := ToString (js_or q (JStr "")) in
  Normal (list_to_set
            (List.filter (fun s => negb (String.eqb s ""))
               (List.map JsString.trim (JsString.split "," text)))).

(** *** Effects *)

Definition Date_now : M num :=
  fun st => (wall (ticks st), set_ticks (S (ticks st)) st).

Definition res_write (r : nat) (f : Frame) : M unit :=
  modify (fun st =>
    set_wire (fun w => w ++ [mkWrite r f (if decide (r ∈ gone st) then Lost else Sent)]) st).

Definition setInterval : M nat :=
  fun st => (next_timer st,
             set_timers (fun t => {[next_timer st]} ∪ t) (S (next_timer st)) st).

Definition clearInterval (h : nat) : M unit :=
  modify (fun st => set_timers (fun t => t ∖ {[h]}) (next_timer st) st).

Definition process_exit (code : Z) : M unit := modify (set_exited code).

(** The handler of [uncaughtException], which logs and exits. *)
Definition uncaughtException : M unit := process_exit 1.

(** A callback the event loop calls with nothing to catch what it
    throws: the exception reaches the handler of [uncaughtException]. *)
Definition listener (h : M (Completion unit)) : M unit :=
  let* c := h in
  match c with
  | Normal _ => ret tt
  | Throw _ => uncaughtException
  end.

(** A route: the router of the framework calls the handler and
    catches what it throws; the relay takes no further step, and the
    answer the framework then gives is not recorded. *)
Definition route (h : M (Completion unit)) : M unit :=
  let* _ := h in ret tt.

(** *** Broadcast and merge *)

(** [sub.filter.size && !sub.filter.has(symbol)]: the subscriber is
    skipped. *)
Definition skips (f : gset string) (symbol : string) : bool :=
  negb (Nat.eqb (size f) 0) && negb (bool_decide (symbol ∈ f)).

Definition pushQuote (symbol : string) : M unit :=
  let* q := gets (fun st => quotes st !! symbol) in
  match q with
  | None => ret tt
  | Some q =>
      let* now := Date_now in
      let line := Update now symbol q in
      let* ss := gets subs in
      for_of ss (fun sub =>
        if skips (filter sub) symbol then ret tt
        else res_write (res sub) line)
  end.

(** [Number.isFinite(patch.f) ? patch.f : cur.f] *)
Definition merge_field (p c : option num) : option num :=
  match p with
  | Some x => if isFinite x then Some x else c
  | None => c
  end.

(** [patch.time || now] *)
Definition time_or (t : option num) (now : num) : num :=
  match t with
  | Some x => or_else x now
  | None => now
  end.

Definition touchQuote (symbol : string) (patch : Patch) : M unit :=
  if String.eqb symbol "" then ret tt
  else
    let* cur := gets (fun st => quotes st !! symbol) in
    let* now := Date_now in
    let out :=
      {| bid := merge_field (p_bid patch) (cur ≫= bid);
         ask := merge_field (p_ask patch) (cur ≫= ask);
         last := merge_field (p_last patch) (cur ≫= last);
         time := time_or (p_time patch) now |} in
    modify (set_quotes (fun m => <[symbol := out]> m));;
    pushQuote symbol.

(** *** Normaliser *)

Definition symbol_keys : list string :=
  ["symbol"; "instrument"; "symbolName"; "s"; "Symbol"].
Definition bid_keys : list string := ["bid"; "b"; "Bid"; "BidPrice"].
Definition ask_keys : list string := ["ask"; "a"; "Ask"; "AskPrice"].
Definition last_keys : list string :=
  ["last"; "price"; "p"; "mark"; "Last"; "LastPrice"].
Definition time_keys : list string :=
  ["time"; "ts"; "timestamp"; "Time"; "Timestamp"].

(** [m?.quote || m?.data?.quote || m?.payload?.quote || m?.payload || m] *)
Definition quote_body (m : JsVal) : JsVal :=
  js_or (js_or (js_or (js_or (opt_member m "quote")
                             (opt_member (opt_member m "data") "quote"))
                      (opt_member (opt_member m "payload") "quote"))
               (opt_member m "payload"))
        m.

(** [Number.isFinite(x) ? x : undefined] *)
Definition finite_or_undefined (x : num) : option num :=
  if isFinite x then Some x else None.

Definition processQuoteLikeEvent (m : JsVal) : M (Completion unit) :=
  let src := quote_body m in
  let! symbol := ret (ToString (js_or (first src symbol_keys) (JStr ""))) in
  if String.eqb symbol "" then finish
  else
    let! bid := ret (n (first src bid_keys)) in
    let! ask := ret (n (first src ask_keys)) in
    let! last := ret (n (first src last_keys)) in
    let! t := ret (Number (first src time_keys)) in
    let* time := (if Num.truthy t then ret t else Date_now) in
    lift (touchQuote symbol
            {| p_bid := finite_or_undefined bid;
               p_ask := finite_or_undefined ask;
               p_last := finite_or_undefined last;
               p_time := Some time |}).

(** *** Brand socket and watchdog *)

(** The [connect] listener. *)
Definition on_connect : M unit := modify (set_lastConnectError (JStr "")).

(** The argument of the [connect_error] listener, as far as the
    listener reads it: [err.message] and [String(err)]; the listener
    reads neither when [err] is falsy. *)
Record ErrorValue : Type := mkErrorValue {
  e_message : JsVal;
  e_string : string;
}.

(** [(err && (err.message || String(err))) || 'connect_error'] *)
Definition on_connect_error (err : option ErrorValue) : M unit :=
  let text :=
    match err with
    | Some e => js_or (js_or (e_message e) (JStr (e_string e))) (JStr "connect_error")
    | None => JStr "connect_error"
    end in
  modify (set_lastConnectError text).

(** The test of the [stream] listener; the type tag is computed
    first. *)
Definition quote_like (m : JsVal) : Completion bool :=
  let? tag := ToString (js_or (opt_member m "type") (JStr "")) in
  let t := JsString.toUpperCase tag in
  Normal (JsString.includes "QUOTE" t || JsString.includes "TICK" t
          || JsString.includes "PRIC" t || JsString.includes "MARKET" t
          || truthy (opt_member m "quote")
          || truthy (opt_member (opt_member m "data") "quote")
          || truthy (opt_member (opt_member m "payload") "quote")).

Definition on_stream (m : JsVal) : M (Completion unit) :=
  let* now := Date_now in
  modify (set_lastBrandEventAt now);;
  let! like := ret (quote_like m) in
  if like then processQuoteLikeEvent m else finish.

(** One run of the 30 s interval; [connected] is [socket.connected]. *)
Definition watchdog (connected : bool) : M unit :=
  if negb (Num.truthy (STALE_MS cfg)) then ret tt
  else if negb connected then
    let* now := Date_now in
    let* lastAt := gets lastBrandEventAt in
    let age := Num.sub now (or_else lastAt zero) in
    if Num.gt age (STALE_MS cfg) then process_exit 1 else ret tt
  else ret tt.

(** *** Routes *)

(** What the routes read of a request: its response handle, three
    query parameters and one header. *)
Record Request : Type := mkRequest {
  r_res : nat;
  q_symbols : JsVal;          (* req.query.symbols *)
  q_symbols_arr : JsVal;      (* req.query['symbols[]'] *)
  q_token : JsVal;            (* req.query.token *)
  h_read_token : JsVal;       (* req.headers['x-read-token'] *)
}.

Definition checkToken (req : Request) : M (Completion bool) :=
  if String.eqb (READ_TOKEN cfg) "" then ret (Normal true)
  else
    let! provided :=
      ret (ToString (js_or (js_or (q_token req) (h_read_token req)) (JStr ""))) in
    if String.eqb provided (READ_TOKEN cfg) then ret (Normal true)
    else res_write (r_res req) Unauthorized;; ret (Normal false).

(** [out[s] = q] on an object created by [{}], seen through its own
    enumerable properties (what [Object.keys] and [JSON.stringify]
    read).  The key [__proto__] reaches the accessor inherited from
    [Object.prototype]: the prototype of [out] becomes [q] and no own
    property is created. *)
Definition obj_set (out : gmap string Quote) (s : string) (q : Quote)
  : gmap string Quote :=
  if String.eqb s "__proto__" then out else <[s := q]> out.

(** The loop both routes run over [quotes.entries()], and one round
    of it. *)
Definition collect_round (f : gset string) (out : gmap string Quote)
    (entry : string * Quote) : gmap string Quote :=
  let '(s, q) := entry in
  if skips f s then out else obj_set out s q.

Definition collect (f : gset string) (qs : gmap string Quote) : gmap string Quote :=
  foldl (collect_round f) ∅ (map_to_list qs).

Definition get_quotes_stream (req : Request) : M (Completion unit) :=
  let! ok := checkToken req in
  if negb ok then finish
  else
    let! f := ret (parseSymbolsParam (js_or (q_symbols req) (q_symbols_arr req))) in
    lift (res_write (r_res req) (Hello true (TYPE cfg));;
          let* qs := gets quotes in
          let all := collect f qs in
          let* now := Date_now in
          res_write (r_res req) (SnapshotAll now all);;
          let* h := setInterval in
          modify (set_subs (fun ss => ss ++ [mkSub (r_res req) f h]))).

(** The interval of one subscriber fires. *)
Definition on_ping (sub : Sub) : M unit := res_write (res sub) Ping.

(** The [close] listener of the request of one subscriber. *)
Definition on_close (sub : Sub) : M unit :=
  clearInterval (ping sub);;
  modify (set_subs (List.filter (fun s => negb (Nat.eqb (res s) (res sub))))).

Definition get_quotes_state (req : Request) : M (Completion unit) :=
  let! ok := checkToken req in
  if negb ok then finish
  else
    let! f := ret (parseSymbolsParam (js_or (q_symbols req) (q_symbols_arr req))) in
    lift (let* qs := gets quotes in
          let out := collect f qs in
          let* now := Date_now in
          res_write (r_res req) (StateJson now (size out) out)).

(** *** The event loop *)

(** The callbacks the process registers, as the events that run
    them.  The listeners of [disconnect], [error] and
    [unhandledRejection] only log and are left out.  [Uncaught] is an
    exception thrown in the process outside the handlers below; what
    the stream listener throws reaches the same handler through
    [listener]. *)
Inductive Event : Type :=
| Stream (m : JsVal)                 (* socket.on('stream', ..) *)
| WatchdogTick (connected : bool)    (* the 30 s interval *)
| GetQuotesStream (req : Request)    (* GET /quotes/stream *)
| GetQuotesState (req : Request)     (* GET /quotes/state *)
| PingTick (sub : Sub)               (* the interval of a subscriber *)
| Close (sub : Sub)                  (* req.on('close', ..) *)
| Connect                            (* socket.on('connect', ..) *)
| ConnectError (err : option ErrorValue)  (* socket.on('connect_error', ..) *)
| Uncaught.                          (* process.on('uncaughtException', ..) *)

Definition handle (e : Event) : M unit :=
  match e with
  | Stream m => listener (on_stream m)
  | WatchdogTick connected => watchdog connected
  | GetQuotesStream req => route (get_quotes_stream req)
  | GetQuotesState req => route (get_quotes_state req)
  | PingTick sub => on_ping sub
  | Close sub => on_close sub
  | Connect => on_connect
  | ConnectError err => on_connect_error err
  | Uncaught => uncaughtException
  end.

Definition run (events : list Event) : M unit := for_of events handle.

(** *** Health *)

(** The body [/health] hands to [res.json]: [{ ok, env, symbols }]. *)
Record Health : Type := mkHealth {
  h_ok : bool;
  h_env : string;
  h_symbols : nat;
}.

Definition get_health : M Health :=
  gets (fun st => mkHealth true (TYPE cfg) (size (quotes st))).

(** *** Configuration *)

(** [process.env[k] || d] with a string default; a variable of
    [process.env] is a string or is not set. *)
Definition env_or (env : string -> option string) (k d : string) : string :=
  match env k with
  | Some s => if String.eqb s "" then d else s
  | None => d
  end.

(** [Number(process.env[k] || d)] with a numeric default. *)
Definition env_number (env : string -> option string) (k : string) (d : Z) : num :=
  match env k with
  | Some s => if String.eqb s "" then of_Z d else StringToNumber s
  | None => of_Z d
  end.

(** The configuration the process reads at start. *)
Definition load_config (env : string -> option string) : Config :=
  {| TYPE := env_or env "TL_ENV" "LIVE";
     HEARTBEAT_MS := env_number env "HEARTBEAT_MS" 1000;
     STALE_MS := env_number env "STALE_MS" 120000;
     READ_TOKEN := env_or env "READ_TOKEN" "" |}.

(** [if (!KEY) { console.error(..); process.exit(1); }] *)
Definition check_key (env : string -> option string) : M unit :=
  match env "TL_BRAND_KEY" with
  | Some s => if String.eqb s "" then process_exit 1 else ret tt
  | None => process_exit 1
  end.

End Relay.

(** ** Vocabulary of the properties *)

(** A price field of the record stored for a symbol; [None] when the
    symbol has no record or the field is [undefined]. *)
Definition stored (fld : Quote -> option num) (st : State) (symbol : string)
  : option num :=
  quotes st !! symbol ≫= fld.

Definition prices (q : Quote) : option num * option num * option num :=
  (bid q, ask q, last q).

(** The value of the most recent entry that is a finite number, in a
    sequence given oldest first. *)
Fixpoint latest_finite (vs : list (option num)) : option num :=
  match vs with
  | [] => None
  | v :: rest =>
      match latest_finite rest with
      | Some x => Some x
      | None =>
          match v with
          | Some x => if isFinite x then Some x else None
          | None => None
          end
      end
  end.

(** The writes issued while the state went from [st] to [st']. *)
Definition issued (st st' : State) : list Write :=
  drop (length (wire st)) (wire st').

(** A filter lets a symbol through. *)
Definition accepts (f : gset string) (symbol : string) : Prop :=
  f = ∅ ∨ symbol ∈ f.

(** The writes one run of the loop of [pushQuote] issues, given the
    line and the registry. *)
Definition fanout (gone : gset nat) (line : Frame) (symbol : string) (ss : list Sub)
  : list Write :=
  omap (fun sub =>
          if skips (filter sub) symbol then None
          else Some (mkWrite (res sub) line
                       (if decide (res sub ∈ gone) then Lost else Sent))) ss.

(** The record [out] that [touchQuote] builds in a given state. *)
Definition merged `{RT : Runtime} (symbol : string) (patch : Patch) (st : State) : Quote :=
  {| bid := merge_field (p_bid patch) (stored bid st symbol);
     ask := merge_field (p_ask patch) (stored ask st symbol);
     last := merge_field (p_last patch) (stored last st symbol);
     time := time_or (p_time patch) (wall (ticks st)) |}.

(** The state the process starts in. *)
Definition initial : State :=
  {| quotes := ∅; subs := []; lastBrandEventAt := zero; lastConnectError := JStr ""; ticks := 0;
     gone := ∅; wire := []; timers := ∅; next_timer := 0; exited := None |}.

(** A runtime to run examples in: the clock starts at 1700000000000 and
    advances by one millisecond at each reading.  The two conversions
    are stand-ins (no string is numeric, every number prints as 0); the
    sample events hold numbers, not numeric strings, and their symbols
    are strings. *)
Definition sample_runtime : Runtime :=
  {| StringToNumber := fun _ => NaN;
     NumberToString := fun _ => "0";
     wall := fun k => of_Z (1700000000000 + Z.of_nat k);
     cfg := {| TYPE := "LIVE"; HEARTBEAT_MS := of_Z 1000;
               STALE_MS := of_Z 120000; READ_TOKEN := "" |} |}.

(** The reading under which a failed write would by itself remove the
    subscriber: once a write of the broadcast to its response is lost,
    the entry is out of [subs] and its interval is cleared. *)
Definition failed_write_removes `{RT : Runtime} (symbol : string) (st : State) : Prop :=
  let st' := exec (pushQuote symbol) st in
  ∀ sub w,
    sub ∈ subs st → w ∈ issued st st' → w_res w = res sub → w_outcome w = Lost →
    (sub ∉ subs st') ∧ (ping sub ∉ timers st').

(** Two subscribers without filter; the socket of the first is gone. *)
Definition one_gone : State :=
  {| quotes := {[ "EURUSD" := mkQuote (Some (of_Z 1)) None None (of_Z 5) ]};
     subs := [mkSub 1 ∅ 0; mkSub 2 ∅ 1];
     lastBrandEventAt := zero; lastConnectError := JStr ""; ticks := 0;
     gone := {[ 1 ]}; wire := []; timers := {[ 0; 1 ]}; next_timer := 2;
     exited := None |}.

(** The parts of [processQuoteLikeEvent]: the symbol it resolves, the
    raw value it extracts for a list of aliases, what its coercions
    give, in the order in which it makes them, and the delta it hands
    to [touchQuote] once the time is settled. *)
Definition resolved_symbol `{RT : Runtime} (m : JsVal) : Completion string :=
  ToString (js_or (first (quote_body m) symbol_keys) (JStr "")).

Definition extracted `{RT : Runtime} (keys : list string) (m : JsVal) : JsVal :=
  first (quote_body m) keys.

Record Coerced : Type := mkCoerced {
  c_symbol : string;
  c_bid : num;      (* [n(..)] of the extracted bid *)
  c_ask : num;
  c_last : num;
  c_time : num;     (* [Number(..)] of the extracted time *)
}.

(** [None] when the symbol is empty and the event is dropped before
    any number is coerced. *)
Definition coerce `{RT : Runtime} (m : JsVal) : Completion (option Coerced) :=
  let? symbol := resolved_symbol m in
  if String.eqb symbol "" then Normal None
  else
    let? b := n (extracted bid_keys m) in
    let? a := n (extracted ask_keys m) in
    let? l := n (extracted last_keys m) in
    let? t := Number (extracted time_keys m) in
    Normal (Some (mkCoerced symbol b a l t)).

Definition delta (c : Coerced) (time : num) : Patch :=
  {| p_bid := finite_or_undefined (c_bid c);
     p_ask := finite_or_undefined (c_ask c);
     p_last := finite_or_undefined (c_last c);
     p_time := Some time |}.

(** The state after the merge of a coerced event: the clock is read
    for the time when the coerced time is falsy. *)
Definition merge_coerced `{RT : Runtime} (c : Coerced) (st : State) : State :=
  if Num.truthy (c_time c)
  then exec (touchQuote (c_symbol c) (delta c (c_time c))) st
  else exec (touchQuote (c_symbol c) (delta c (wall (ticks st))))
            (set_ticks (S (ticks st)) st).

(** What the stream listener coerces of an event: the type tag, and
    for a quote-like event what the normaliser coerces. *)
Definition stream_coerce `{RT : Runtime} (m : JsVal) : Completion (option Coerced) :=
  let? like := quote_like m in
  if like then coerce m else Normal None.

(** The state the stream listener reaches before it looks at the
    event. *)
Definition stamped `{RT : Runtime} (st : State) : State :=
  set_lastBrandEventAt (wall (ticks st)) (set_ticks (S (ticks st)) st).

(** An alias is present in a quote body with a value that is neither
    [undefined], [null] nor the empty string. *)
Definition has_value (src : JsVal) (k : string) : Prop :=
  ∃ v, own_property src k = Some v ∧ v ≠ JUndef ∧ v ≠ JNull ∧ v ≠ JStr "".

(** The reading under which a numeric upstream time always reaches the
    store: whenever the extracted time coerces to a number, that number
    is the [time] of the stored record. *)
Definition numeric_time_kept `{RT : Runtime} (m : JsVal) (st : State) : Prop :=
  ∀ symbol t,
    resolved_symbol m = Normal symbol →
    Number (extracted time_keys m) = Normal t →
    t ≠ NaN →
    time <$> quotes (exec (processQuoteLikeEvent m) st) !! symbol = Some t.

(** [{ toString: 1 }], a JSON object that has no primitive, and
    [{ type: "QUOTE", symbol: "EURUSD", bid: { toString: 1 }, ask: 2 }] *)
Definition unprintable : JsVal := JObj [("toString", JNum one)].

Definition unprintable_bid_event : JsVal :=
  JObj [("type", JStr "QUOTE"); ("symbol", JStr "EURUSD");
        ("bid", unprintable); ("ask", JNum (of_Z 2))].

(** [{ type: { toString: 1 } }] *)
Definition unprintable_type_event : JsVal := JObj [("type", unprintable)].

(** [{ symbol: "EURUSD", bid: 1, time: 0 }] *)
Definition epoch_event : JsVal :=
  JObj [("symbol", JStr "EURUSD"); ("bid", JNum (of_Z 1)); ("time", JNum zero)].

(** The age the watchdog computes when it runs in [st]:
    [Date.now() - (lastBrandEventAt || 0)]. *)
Definition elapsed `{RT : Runtime} (st : State) : num :=
  Num.sub (wall (ticks st)) (or_else (lastBrandEventAt st) zero).

(** A request without parameters on response 7, and a store whose only
    symbol is [__proto__]. *)
Definition plain_request : Request :=
  {| r_res := 7; q_symbols := JUndef; q_symbols_arr := JUndef;
     q_token := JUndef; h_read_token := JUndef |}.

Definition proto_quote : Quote := mkQuote (Some (of_Z 1)) None None (of_Z 5).

Definition proto_store : State :=
  {| quotes := {[ "__proto__" := proto_quote ]}; subs := [];
     lastBrandEventAt := zero; lastConnectError := JStr ""; ticks := 0; gone := ∅; wire := []; timers := ∅;
     next_timer := 0; exited := None |}.

(** Vocabulary for the parsed filter: strings made of white space,
    strings without a comma, the first and last character of a string. *)
Fixpoint all_ws (s : string) : bool :=
  match s with
  | EmptyString => true
  | String c r => JsString.is_ws c && all_ws r
  end.

Fixpoint no_comma (s : string) : bool :=
  match s with
  | EmptyString => true
  | String c r => negb (Ascii.eqb c ",") && no_comma r
  end.

Definition first_char (s : string) : option ascii :=
  match s with
  | EmptyString => None
  | String c _ => Some c
  end.

Fixpoint last_char (s : string) : option ascii :=
  match s with
  | EmptyString => None
  | String c EmptyString => Some c
  | String _ r => last_char r
  end.

(** [u] is [t] without its leading and trailing white space. *)
Definition trimmed_of (t u : string) : Prop :=
  ∃ l r, t = l +:+ u +:+ r
         ∧ all_ws l = true ∧ all_ws r = true
         ∧ (∀ c, first_char u = Some c → JsString.is_ws c = false)
         ∧ (∀ c, last_char u = Some c → JsString.is_ws c = false).

(** [toks] are the comma-separated tokens of [s]: putting commas
    between them gives [s] back and none of them holds a comma. *)
Definition comma_tokens (s : string) (toks : list string) : Prop :=
  JsString.join "," toks = s ∧ Forall (fun t => no_comma t = true) toks ∧ toks ≠ [].

(** What an array element contributes to [join], and the texts of the
    elements of an array, left to right. *)
Definition element_text `{RT : Runtime} (e : JsVal) : Completion string :=
  match e with
  | JUndef | JNull => Normal ""
  | _ => ToString e
  end.

Fixpoint element_texts `{RT : Runtime} (xs : list JsVal) : Completion (list string) :=
  match xs with
  | [] => Normal []
  | e :: rest =>
      let? s := element_text e in
      let? ss := element_texts rest in
      Normal (s :: ss)
  end.

(** Further sample data: a subscriber filtered to EURUSD next to one
    without filter, states in which the last upstream event is 121 s
    and 119 s old at the next clock reading, a runtime with the
    watchdog switched off, and some events. *)
Definition eurusd_only : Sub := mkSub 1 {[ "EURUSD" ]} 0.
Definition unfiltered : Sub := mkSub 2 ∅ 1.

Definition filtered_pair : State :=
  {| quotes := {[ "GBPUSD" := mkQuote None (Some (of_Z 2)) None (of_Z 5) ]};
     subs := [eurusd_only; unfiltered];
     lastBrandEventAt := zero; lastConnectError := JStr ""; ticks := 0;
     gone := ∅; wire := []; timers := {[ 0; 1 ]}; next_timer := 2;
     exited := None |}.

Definition silent_since (t : Z) : State :=
  {| quotes := ∅; subs := []; lastBrandEventAt := of_Z t; lastConnectError := JStr ""; ticks := 0;
     gone := ∅; wire := []; timers := ∅; next_timer := 0; exited := None |}.

Definition watchdog_off : Runtime :=
  {| StringToNumber := fun _ => NaN;
     NumberToString := fun _ => "0";
     wall := fun k => of_Z (1700000000000 + Z.of_nat k);
     cfg := {| TYPE := "LIVE"; HEARTBEAT_MS := of_Z 1000;
               STALE_MS := zero; READ_TOKEN := "" |} |}.

(** [{ type: "NEWS" }] *)
Definition news_event : JsVal := JObj [("type", JStr "NEWS")].

(** [{ symbol: "EURUSD", bid: "n/a", ask: 0 }] *)
Definition partial_event : JsVal :=
  JObj [("symbol", JStr "EURUSD"); ("bid", JStr "n/a"); ("ask", JNum zero)].

(** [{ symbol: "EURUSD", time: 1699999999999 }] *)
Definition timed_event : JsVal :=
  JObj [("symbol", JStr "EURUSD"); ("time", JNum (of_Z 1699999999999))].

(** Three deltas: [{ bid: 1 }], [{ ask: 2 }], [{ bid: NaN }]. *)
Definition sample_deltas : list Patch :=
  [ mkPatch (Some (of_Z 1)) None None None;
    mkPatch None (Some (of_Z 2)) None None;
    mkPatch (Some NaN) None None None ].

(** A run of merges over several symbols, and the deltas of the run
    that are for one symbol, in order. *)
Definition run_merges `{RT : Runtime} (ops : list (string * Patch)) : M unit :=
  for_of ops (fun op => touchQuote op.1 op.2).

Definition deltas_for (symbol : string) (ops : list (string * Patch)) : list Patch :=
  snd <$> List.filter (fun op => String.eqb op.1 symbol) ops.

(** The token a request provides:
    [String(req.query.token || req.headers['x-read-token'] || '')]. *)
Definition provided_token `{RT : Runtime} (req : Request) : Completion string :=
  ToString (js_or (js_or (q_token req) (h_read_token req)) (JStr "")).

(** What [checkToken] answers for a request; the provided token is
    not looked at when no token is configured. *)
Definition authorized `{RT : Runtime} (req : Request) : Completion bool :=
  if String.eqb (READ_TOKEN cfg) "" then Normal true
  else let? provided := provided_token req in
       Normal (String.eqb provided (READ_TOKEN cfg)).

(** An event other than the close of the request of a subscriber. *)
Definition not_close_of (sub : Sub) (e : Event) : Prop :=
  ∀ s, e = Close s → res s ≠ res sub.

(** What the handlers leave alone when they only merge and broadcast. *)
Definition same_surroundings (st st' : State) : Prop :=
  subs st' = subs st ∧ lastBrandEventAt st' = lastBrandEventAt st
  ∧ gone st' = gone st ∧ timers st' = timers st
  ∧ next_timer st' = next_timer st ∧ exited st' = exited st
  ∧ lastConnectError st' = lastConnectError st.

(** [{ type: "QUOTE", symbol: "__proto__", bid: 1 }] *)
Definition proto_event : JsVal :=
  JObj [("type", JStr "QUOTE"); ("symbol", JStr "__proto__"); ("bid", JNum (of_Z 1))].

(** ** Vocabulary of the further properties *)

(** The value [first] finds under one path. *)
Definition path_value (obj : JsVal) (p : string) : JsVal :=
  walk obj (JsString.split "." p).

(** A price field is a finite number or [undefined]. *)
Definition finite_or_absent (o : option num) : Prop :=
  ∀ x, o = Some x → isFinite x = true.

(** Every record of the store is under a non-empty symbol and holds
    finite prices only. *)
Definition store_ok (st : State) : Prop :=
  ∀ s q, quotes st !! s = Some q →
    s ≠ "" ∧ finite_or_absent (bid q) ∧ finite_or_absent (ask q)
    ∧ finite_or_absent (last q).

(** Kinds of events. *)
Definition is_stream (e : Event) : bool :=
  match e with Stream _ => true | _ => false end.

Definition is_watchdog (e : Event) : bool :=
  match e with WatchdogTick _ => true | _ => false end.

Definition touches_registry (e : Event) : bool :=
  match e with GetQuotesStream _ | Close _ => true | _ => false end.

Definition is_connect (e : Event) : bool :=
  match e with Connect | ConnectError _ => true | _ => false end.

(** The event reaches the handler of [uncaughtException]: an exception
    thrown elsewhere in the process, or an upstream event on which a
    coercion of the stream listener throws. *)
Definition is_uncaught `{RT : Runtime} (e : Event) : bool :=
  match e with
  | Uncaught => true
  | Stream m => match stream_coerce m with Throw _ => true | Normal _ => false end
  | _ => false
  end.

(** The symbol an event stores a record for, if any, and the symbols a
    run of events stores records for. *)
Definition event_symbol `{RT : Runtime} (e : Event) : option string :=
  match e with
  | Stream m =>
      match stream_coerce m with
      | Normal (Some c) => Some (c_symbol c)
      | _ => None
      end
  | _ => None
  end.

Definition symbols_seen `{RT : Runtime} (events : list Event) : gset string :=
  list_to_set (omap event_symbol events).

(** The outcome of a write on a response in a given state. *)
Definition outcome_on (st : State) (r : nat) : Outcome :=
  if decide (r ∈ gone st) then Lost else Sent.

(** The filter a request asks for. *)
Definition requested_filter `{RT : Runtime} (req : Request) : Completion (gset string) :=
  parseSymbolsParam (js_or (q_symbols req) (q_symbols_arr req)).

Definition is_update (f : Frame) : bool :=
  match f with Update _ _ _ => true | _ => false end.

(** An event that does not open a stream on response [r]. *)
Definition not_opening (r : nat) (e : Event) : Prop :=
  ∀ req, e = GetQuotesStream req → r_res req ≠ r.

(** The registry and the intervals agree: entries are on distinct
    responses and hold distinct intervals, the live intervals are those
    of the entries, and handles not yet given out are not live. *)
Definition registry_ok (st : State) : Prop :=
  NoDup (res <$> subs st) ∧ NoDup (ping <$> subs st)
  ∧ timers st = list_to_set (ping <$> subs st)
  ∧ ∀ t, t ∈ timers st → (t < next_timer st)%nat.

(** An event the server can get in a state: a stream is opened on a
    response no entry holds, and a close is that of an entry of the
    registry, or comes again after its entry and interval are gone. *)
Definition event_ok (st : State) (e : Event) : Prop :=
  match e with
  | GetQuotesStream req => r_res req ∉ res <$> subs st
  | Close sub =>
      sub ∈ subs st ∨ ((res sub ∉ res <$> subs st) ∧ (ping sub ∉ timers st))
  | _ => True
  end.

Fixpoint run_ok `{RT : Runtime} (st : State) (events : list Event) : Prop :=
  match events with
  | [] => True
  | e :: rest => event_ok st e ∧ run_ok (exec (handle e) st) rest
  end.

(** [t] holds [word] somewhere, letter case apart. *)
Definition contains_ci (word t : string) : Prop :=
  ∃ pre mid post, t = pre +:+ mid +:+ post ∧ JsString.toUpperCase mid = word.

(** The type tag the stream listener looks at:
    [(m?.type || '').toString()]. *)
Definition type_tag `{RT : Runtime} (m : JsVal) : Completion string :=
  ToString (js_or (opt_member m "type") (JStr "")).

(** A JSON value has a string: it is no object with an own
    [toString], and no array that holds such an object at any depth. *)
Fixpoint has_string (v : JsVal) : bool :=
  match v with
  | JArr xs => forallb has_string xs
  | JObj fs => match assoc "toString" fs with Some _ => false | None => true end
  | _ => true
  end.

(** A symbol as a parsed filter holds them: not empty, without comma,
    without white space at either end. *)
Definition clean_token (x : string) : Prop :=
  x ≠ "" ∧ no_comma x = true
  ∧ (∀ c, first_char x = Some c → JsString.is_ws c = false)
  ∧ (∀ c, last_char x = Some c → JsString.is_ws c = false).

(** The string [parseSymbolsParam] splits:
    [String((Array.isArray(q) ? q.join(',') : q) || '')]. *)
Definition param_text `{RT : Runtime} (q : JsVal) : Completion string :=
  let? q := (if isArray q then let? s := ToString q in Normal (JStr s)
             else Normal q) in
  ToString (js_or q (JStr "")).

(** Sample data for the further properties: a runtime with a read
    token, one whose clock stands still, requests, and events. *)
Definition token_runtime : Runtime :=
  {| StringToNumber := fun _ => NaN;
     NumberToString := fun _ => "0";
     wall := fun k => of_Z (1700000000000 + Z.of_nat k);
     cfg := {| TYPE := "LIVE"; HEARTBEAT_MS := of_Z 1000;
               STALE_MS := of_Z 120000; READ_TOKEN := "s3cret" |} |}.


(** [?token=s3cret] on response 7, and [?symbols=EURUSD] on response 8. *)
Definition token_request : Request :=
  {| r_res := 7; q_symbols := JUndef; q_symbols_arr := JUndef;
     q_token := JStr "s3cret"; h_read_token := JUndef |}.

Definition eurusd_request : Request :=
  {| r_res := 8; q_symbols := JStr "EURUSD"; q_symbols_arr := JUndef;
     q_token := JUndef; h_read_token := JUndef |}.

(** [{ symbol: null, s: "EURUSD", Symbol: "other" }] *)
Definition aliased_body : JsVal :=
  JObj [("symbol", JNull); ("s", JStr "EURUSD"); ("Symbol", JStr "other")].

(** [{ type: "tick", symbol: "EURUSD", bid: 1 }] and
    [{ type: "tick", symbol: "GBPUSD", ask: 2 }] *)
Definition eurusd_tick : JsVal :=
  JObj [("type", JStr "tick"); ("symbol", JStr "EURUSD"); ("bid", JNum (of_Z 1))].

Definition gbpusd_tick : JsVal :=
  JObj [("type", JStr "tick"); ("symbol", JStr "GBPUSD"); ("ask", JNum (of_Z 2))].


(** Merges for two symbols, interleaved. *)
Definition sample_merges : list (string * Patch) :=
  [ ("EURUSD", mkPatch (Some (of_Z 1)) None None None);
    ("GBPUSD", mkPatch (Some (of_Z 3)) None None None);
    ("EURUSD", mkPatch (Some NaN) (Some (of_Z 2)) None None) ].

(** An environment with the brand key and a threshold that is no
    number, and the sample runtime configured from it. *)
Definition odd_env (k : string) : option string :=
  if String.eqb k "TL_BRAND_KEY" then Some "key"
  else if String.eqb k "STALE_MS" then Some "two minutes"
  else None.

Definition odd_runtime : Runtime :=
  {| StringToNumber := fun _ => NaN;
     NumberToString := fun _ => "0";
     wall := fun k => of_Z (1700000000000 + Z.of_nat k);
     cfg := load_config (RT := sample_runtime) odd_env |}.

(** ** Properties *)

Section Properties.

Context `{RT : Runtime}.

(** *** The monad *)

Lemma exec_bind {A B} (m : M A) (k : A -> M B) st :
  exec (bind m k) st = exec (k (eval m st)) (exec m st).
Proof. unfold exec, eval, bind. by destruct (m st). Qed.

Lemma for_of_app {A} (xs ys : list A) body st :
  exec (for_of (xs ++ ys) body) st = exec (for_of ys body) (exec (for_of xs body) st).
Proof.
  revert st. induction xs as [|x xs IH]; intros st; [done|].
  simpl. rewrite !exec_bind. apply IH.
Qed.

(** A loop keeps whatever each of its rounds keeps. *)
Lemma for_of_keeps {A X} (f : State -> X) (xs : list A) body :
  (∀ x st, f (exec (body x) st) = f st) →
  ∀ st, f (exec (for_of xs body) st) = f st.
Proof.
  intros Hbody. induction xs as [|x xs IH]; intros st; [done|].
  simpl. rewrite exec_bind, IH. apply Hbody.
Qed.

(** *** pushQuote *)

Lemma fanout_loop line symbol ss st :
  exec (for_of ss (fun sub =>
          if skips (filter sub) symbol then ret tt
          else res_write (res sub) line)) st
  = set_wire (fun w => w ++ fanout (gone st) line symbol ss) st.
Proof.
  revert st. induction ss as [|sub ss IH]; intros st.
  - destruct st. unfold set_wire, fanout. simpl. by rewrite app_nil_r.
  - simpl for_of. rewrite exec_bind, IH. unfold fanout. simpl.
    destruct (skips (filter sub) symbol); destruct st; unfold set_wire; simpl; [done|].
    by rewrite <- app_assoc.
Qed.

Lemma pushQuote_exec symbol st :
  exec (pushQuote symbol) st =
  match quotes st !! symbol with
  | None => st
  | Some q =>
      set_wire (fun w => w ++ fanout (gone st) (Update (wall (ticks st)) symbol q)
                                     symbol (subs st))
               (set_ticks (S (ticks st)) st)
  end.
Proof.
  unfold pushQuote. rewrite exec_bind. unfold gets at 1, exec at 2, eval at 1. simpl.
  destruct (quotes st !! symbol) as [q|]; [|done].
  rewrite exec_bind. unfold Date_now at 1 2, exec at 2, eval at 1. simpl.
  rewrite exec_bind. unfold gets at 1, exec at 2, eval at 1. simpl.
  by rewrite fanout_loop.
Qed.

Lemma pushQuote_quotes symbol st : quotes (exec (pushQuote symbol) st) = quotes st.
Proof. rewrite pushQuote_exec. by destruct (quotes st !! symbol). Qed.

Lemma pushQuote_subs symbol st : subs (exec (pushQuote symbol) st) = subs st.
Proof. rewrite pushQuote_exec. by destruct (quotes st !! symbol). Qed.

Lemma pushQuote_timers symbol st : timers (exec (pushQuote symbol) st) = timers st.
Proof. rewrite pushQuote_exec. by destruct (quotes st !! symbol). Qed.

(** *** touchQuote *)

Lemma touchQuote_empty patch st : exec (touchQuote "" patch) st = st.
Proof. done. Qed.

Lemma touchQuote_exec symbol patch st :
  symbol ≠ "" →
  exec (touchQuote symbol patch) st =
  exec (pushQuote symbol)
    (set_quotes (fun m => <[symbol := merged symbol patch st]> m)
       (set_ticks (S (ticks st)) st)).
Proof.
  intros Hne. unfold touchQuote.
  apply String.eqb_neq in Hne. rewrite Hne.
  rewrite exec_bind. unfold gets at 1, exec at 2, eval at 1. simpl.
  rewrite exec_bind. unfold Date_now at 1 2, exec at 2, eval at 1. simpl.
  rewrite exec_bind. done.
Qed.

Lemma touchQuote_quotes symbol patch st :
  symbol ≠ "" →
  quotes (exec (touchQuote symbol patch) st)
  = <[symbol := merged symbol patch st]> (quotes st).
Proof. intros Hne. by rewrite touchQuote_exec, pushQuote_quotes. Qed.

Lemma touchQuote_ticks symbol patch st :
  symbol ≠ "" → ticks (exec (touchQuote symbol patch) st) = S (S (ticks st)).
Proof.
  intros Hne. rewrite touchQuote_exec, pushQuote_exec by done. simpl.
  by rewrite lookup_insert_eq.
Qed.

Lemma touchQuote_stored fld pf symbol patch st :
  symbol ≠ "" →
  (∀ p s, fld (merged symbol p s) = merge_field (pf p) (stored fld s symbol)) →
  stored fld (exec (touchQuote symbol patch) st) symbol
  = merge_field (pf patch) (stored fld st symbol).
Proof.
  intros Hne Hfld. unfold stored at 1.
  rewrite touchQuote_quotes, lookup_insert_eq by done. simpl. apply Hfld.
Qed.

Lemma touchQuote_keeps_record symbol patch st :
  is_Some (quotes st !! symbol) →
  is_Some (quotes (exec (touchQuote symbol patch) st) !! symbol).
Proof.
  intros Hsome. destruct (decide (symbol = "")) as [->|Hne]; [done|].
  rewrite touchQuote_quotes, lookup_insert_eq by done. eauto.
Qed.

Lemma touchQuote_seq_keeps_record symbol ds st :
  is_Some (quotes st !! symbol) →
  is_Some (quotes (exec (for_of ds (touchQuote symbol)) st) !! symbol).
Proof.
  revert st. induction ds as [|d ds IH]; intros st Hsome; [done|].
  simpl. rewrite exec_bind. by apply IH, touchQuote_keeps_record.
Qed.

(** A run of merges for one symbol leaves in a field the latest
    finite value supplied, or what was there before the run. *)
Lemma touchQuote_seq_stored fld pf symbol ds st :
  symbol ≠ "" →
  (∀ p s, fld (merged symbol p s) = merge_field (pf p) (stored fld s symbol)) →
  stored fld (exec (for_of ds (touchQuote symbol)) st) symbol
  = match latest_finite (pf <$> ds) with
    | Some x => Some x
    | None => stored fld st symbol
    end.
Proof.
  intros Hne Hfld. revert st.
  induction ds as [|d ds IH]; intros st; [done|].
  simpl for_of. rewrite exec_bind, IH.
  rewrite fmap_cons. simpl latest_finite.
  destruct (latest_finite (pf <$> ds)) as [x|]; [done|].
  rewrite (touchQuote_stored fld pf) by done.
  unfold merge_field. destruct (pf d) as [x|]; [|done].
  by destruct (isFinite x).
Qed.

Lemma touchQuote_other fld s symbol patch st :
  s ≠ symbol →
  stored fld (exec (touchQuote s patch) st) symbol = stored fld st symbol.
Proof.
  intros Hs. destruct (decide (s = "")) as [->|Hne]; [done|].
  unfold stored. by rewrite touchQuote_quotes, lookup_insert_ne.
Qed.

(** The same for a run that also merges deltas for other symbols: only
    the deltas for the symbol count. *)
Lemma touchQuote_interleaved fld pf symbol ops st :
  symbol ≠ "" →
  (∀ p s, fld (merged symbol p s) = merge_field (pf p) (stored fld s symbol)) →
  stored fld (exec (run_merges ops) st) symbol
  = match latest_finite (pf <$> deltas_for symbol ops) with
    | Some x => Some x
    | None => stored fld st symbol
    end.
Proof.
  intros Hne Hfld. revert st. unfold run_merges, deltas_for.
  induction ops as [|[s d] ops IH]; intros st; [done|].
  simpl for_of. rewrite exec_bind, IH. simpl List.filter.
  destruct (String.eqb s symbol) eqn:Hs.
  - apply String.eqb_eq in Hs as ->. rewrite fmap_cons. simpl latest_finite.
    destruct (latest_finite _) as [x|]; [done|].
    rewrite (touchQuote_stored fld pf) by done.
    unfold merge_field. simpl. destruct (pf d) as [x|]; [|done].
    by destruct (isFinite x).
  - apply String.eqb_neq in Hs.
    destruct (latest_finite _) as [x|]; [done|].
    by apply touchQuote_other.
Qed.

(** C1. After any sequence of deltas merged by [touchQuote] for one
    symbol that had no record, each of [bid], [ask] and [last] of the
    stored record is the value of the most recent delta that supplied
    a finite number for that field, deltas that left the field out or
    supplied a non-finite number being skipped; the field is absent
    when no delta supplied a finite number for it. *)
Theorem touchQuote_latest_finite symbol ds st :
  symbol ≠ "" →
  quotes st !! symbol = None →
  let st' := exec (for_of ds (touchQuote symbol)) st in
  stored bid st' symbol = latest_finite (p_bid <$> ds)
  ∧ stored ask st' symbol = latest_finite (p_ask <$> ds)
  ∧ stored last st' symbol = latest_finite (p_last <$> ds)
  ∧ (ds ≠ [] → is_Some (quotes st' !! symbol)).
Proof.
  intros Hne Hfresh st'. subst st'.
  rewrite (touchQuote_seq_stored bid p_bid), (touchQuote_seq_stored ask p_ask),
    (touchQuote_seq_stored last p_last) by done.
  unfold stored. rewrite Hfresh. simpl.
  repeat split; try by destruct (latest_finite _).
  destruct ds as [|d ds]; [done|]. intros _.
  simpl. rewrite exec_bind. apply touchQuote_seq_keeps_record.
  rewrite touchQuote_quotes, lookup_insert_eq by done. eauto.
Qed.

Lemma merge_field_twice p c : merge_field p (merge_field p c) = merge_field p c.
Proof. unfold merge_field. destruct p as [x|]; [|done]. by destruct (isFinite x). Qed.

(** C2. Applying one delta twice with [touchQuote] leaves the store as
    applying it once does, up to the [time] of the symbol's record,
    which is that of the second application: the delta's [time] when
    it is truthy, the clock reading of the second application
    otherwise. *)
Theorem touchQuote_idempotent symbol d st :
  let st1 := exec (touchQuote symbol d) st in
  let st2 := exec (touchQuote symbol d) st1 in
  (∀ s, prices <$> quotes st2 !! s = prices <$> quotes st1 !! s)
  ∧ (∀ s, s ≠ symbol → quotes st2 !! s = quotes st1 !! s)
  ∧ (symbol ≠ "" →
     time <$> quotes st2 !! symbol = Some (time_or (p_time d) (wall (ticks st1)))).
Proof.
  intros st1 st2. subst st1 st2.
  destruct (decide (symbol = "")) as [->|Hne]; [done|].
  set (st1 := exec (touchQuote symbol d) st).
  rewrite (touchQuote_quotes symbol d st1) by done.
  split; [|split].
  - intros s. destruct (decide (s = symbol)) as [->|Hs].
    + rewrite lookup_insert_eq. subst st1.
      rewrite touchQuote_quotes, lookup_insert_eq by done. simpl.
      unfold prices, merged. simpl. unfold stored.
      rewrite touchQuote_quotes, lookup_insert_eq by done. simpl.
      by rewrite !merge_field_twice.
    + by rewrite lookup_insert_ne.
  - intros s Hs. by rewrite lookup_insert_ne.
  - intros _. by rewrite lookup_insert_eq.
Qed.

(** *** Broadcast *)

Lemma skips_accepts f symbol : skips f symbol = false ↔ accepts f symbol.
Proof.
  unfold skips, accepts.
  rewrite andb_false_iff, !negb_false_iff, Nat.eqb_eq, bool_decide_eq_true.
  by rewrite size_empty_iff, leibniz_equiv_iff.
Qed.

Lemma elem_of_fanout w g line symbol ss :
  w ∈ fanout g line symbol ss ↔
  ∃ sub, sub ∈ ss ∧ accepts (filter sub) symbol
         ∧ w = mkWrite (res sub) line (if decide (res sub ∈ g) then Lost else Sent).
Proof.
  unfold fanout. rewrite list_elem_of_omap.
  split; intros (sub & Hin & Hw); exists sub.
  - destruct (skips (filter sub) symbol) eqn:Hsk; [done|].
    apply skips_accepts in Hsk. by simplify_eq.
  - destruct Hw as [Hacc ->]. apply skips_accepts in Hacc. by rewrite Hacc.
Qed.

Lemma pushQuote_issued symbol q st :
  quotes st !! symbol = Some q →
  issued st (exec (pushQuote symbol) st)
  = fanout (gone st) (Update (wall (ticks st)) symbol q) symbol (subs st).
Proof.
  intros Hq. rewrite pushQuote_exec, Hq. unfold issued. simpl.
  by rewrite drop_app_length.
Qed.

(** Entries of a registry without two entries on one response are
    told apart by their response. *)
Lemma registry_entry_unique (ss : list Sub) a b :
  NoDup (res <$> ss) → a ∈ ss → b ∈ ss → res a = res b → a = b.
Proof.
  induction ss as [|s ss IH]; intros Hnd Ha Hb Hres; [by apply elem_of_nil in Ha|].
  rewrite fmap_cons in Hnd. apply NoDup_cons in Hnd as [Hnotin Hnd].
  apply elem_of_cons in Ha as [->|Ha]; apply elem_of_cons in Hb as [->|Hb]; auto.
  - exfalso. apply Hnotin. rewrite Hres. by apply list_elem_of_fmap_2.
  - exfalso. apply Hnotin. rewrite <- Hres. by apply list_elem_of_fmap_2.
Qed.

(** C3. In a broadcast for a stored symbol, a write to the response
    of a registered subscriber is issued if and only if its filter is
    empty or holds the symbol; every write carries the symbol, its
    stored quote and the clock reading; a subscriber whose filter is
    just EURUSD gets no write for another symbol, and one with the
    empty filter gets a write for every symbol. *)
Theorem pushQuote_delivery symbol q st sub :
  quotes st !! symbol = Some q →
  NoDup (res <$> subs st) →
  sub ∈ subs st →
  let st' := exec (pushQuote symbol) st in
  let line := Update (wall (ticks st)) symbol q in
  ((∃ w, w ∈ issued st st' ∧ w_res w = res sub) ↔ accepts (filter sub) symbol)
  ∧ (∀ w, w ∈ issued st st' → w_frame w = line)
  ∧ (accepts (filter sub) symbol → res sub ∉ gone st →
     mkWrite (res sub) line Sent ∈ issued st st')
  ∧ (filter sub = {[ "EURUSD" ]} → symbol ≠ "EURUSD" →
     ∀ w, w ∈ issued st st' → w_res w ≠ res sub)
  ∧ (filter sub = ∅ → ∃ w, w ∈ issued st st' ∧ w_res w = res sub ∧ w_frame w = line).
Proof.
  intros Hq Hnd Hsub st' line. subst st' line.
  rewrite pushQuote_issued with (q := q) by done.
  assert (Hiff : (∃ w, w ∈ fanout (gone st) (Update (wall (ticks st)) symbol q)
                             symbol (subs st) ∧ w_res w = res sub)
                 ↔ accepts (filter sub) symbol).
  { split.
    - intros (w & Hw & Hres). apply elem_of_fanout in Hw as (sub' & Hin & Hacc & ->).
      simpl in Hres. by rewrite <- (registry_entry_unique (subs st) sub' sub).
    - intros Hacc. eexists. split; [apply elem_of_fanout; eauto|done]. }
  split; [exact Hiff|]. split; [|split; [|split]].
  - intros w Hw. by apply elem_of_fanout in Hw as (sub' & _ & _ & ->).
  - intros Hacc Hlive. apply elem_of_fanout. exists sub.
    by rewrite decide_False.
  - intros Hf Hne w Hw Hres.
    assert (Hacc : accepts (filter sub) symbol) by (apply Hiff; eauto).
    rewrite Hf in Hacc. destruct Hacc as [Hempty|Hin]; set_solver.
  - intros Hf. assert (Hacc : accepts (filter sub) symbol) by by left.
    eexists. split; [apply elem_of_fanout; eauto|done].
Qed.

(** *** Subscriber removal *)

Lemma on_close_exec sub st :
  exec (on_close sub) st =
  set_subs (List.filter (fun s => negb (Nat.eqb (res s) (res sub))))
    (set_timers (fun t => t ∖ {[ ping sub ]}) (next_timer st) st).
Proof. done. Qed.

Lemma on_close_subs sub st s :
  s ∈ subs (exec (on_close sub) st) ↔ s ∈ subs st ∧ res s ≠ res sub.
Proof.
  rewrite on_close_exec. simpl.
  rewrite !list_elem_of_In, filter_In, negb_true_iff, Nat.eqb_neq. done.
Qed.

Lemma on_close_timers sub st : ping sub ∉ timers (exec (on_close sub) st).
Proof.
  rewrite on_close_exec. simpl. intros Hin.
  apply elem_of_difference in Hin as [_ Hout]. apply Hout. by apply elem_of_singleton.
Qed.

(** *** Exceptions *)

Lemma try_bind_ret {A B} (c : Completion A) (k : A -> M (Completion B)) st :
  try_bind (ret c) k st
  = match c with
    | Normal a => k a st
    | Throw e => (Throw e, st)
    end.
Proof. unfold try_bind, bind, ret. by destruct c. Qed.

Lemma try_bind_run {A B} (m : M (Completion A)) (k : A -> M (Completion B)) st :
  try_bind m k st
  = match eval m st with
    | Normal a => k a (exec m st)
    | Throw e => (Throw e, exec m st)
    end.
Proof. unfold try_bind, bind, ret, eval, exec. destruct (m st) as [[a|e] st']; done. Qed.

Lemma lift_run {A} (m : M A) st : lift m st = (Normal (eval m st), exec m st).
Proof. unfold lift, bind, ret, eval, exec. by destruct (m st). Qed.

Lemma exec_listener h st :
  exec (listener h) st
  = match eval h st with
    | Normal _ => exec h st
    | Throw _ => set_exited 1 (exec h st)
    end.
Proof.
  unfold listener, exec, eval, bind. destruct (h st) as [[[]|e] st']; done.
Qed.

Lemma exec_route h st : exec (route h) st = exec h st.
Proof. unfold route, exec, bind. by destruct (h st). Qed.

(** The string of an array is the join of the texts of its elements,
    and thrown when one of them is. *)
Lemma ToString_array xs :
  ToString (JArr xs)
  = let? parts := element_texts xs in Normal (JsString.join "," parts).
Proof.
  simpl. f_equal. induction xs as [|e xs IH]; [done|].
  simpl. by rewrite IH.
Qed.

(** *** Normaliser *)

Lemma processQuoteLikeEvent_run m st :
  processQuoteLikeEvent m st =
  match coerce m with
  | Throw e => (Throw e, st)
  | Normal None => (Normal tt, st)
  | Normal (Some c) => (Normal tt, merge_coerced c st)
  end.
Proof.
  unfold processQuoteLikeEvent, coerce, merge_coerced.
  fold (resolved_symbol m) (extracted bid_keys m) (extracted ask_keys m)
    (extracted last_keys m) (extracted time_keys m).
  rewrite try_bind_ret. destruct (resolved_symbol m) as [symbol|e]; [|done]. simpl.
  destruct (String.eqb symbol ""); [done|].
  rewrite try_bind_ret. destruct (n (extracted bid_keys m)) as [b|e]; [|done]. simpl.
  rewrite try_bind_ret. destruct (n (extracted ask_keys m)) as [a|e]; [|done]. simpl.
  rewrite try_bind_ret. destruct (n (extracted last_keys m)) as [l|e]; [|done]. simpl.
  rewrite try_bind_ret. destruct (Number (extracted time_keys m)) as [t|e]; [|done]. simpl.
  unfold bind. destruct (Num.truthy t); simpl; rewrite lift_run;
    by destruct (eval _ _).
Qed.

Lemma coerce_symbol m c :
  coerce m = Normal (Some c) → resolved_symbol m = Normal (c_symbol c) ∧ c_symbol c ≠ "".
Proof.
  unfold coerce. destruct (resolved_symbol m) as [symbol|e]; [|done]. simpl.
  destruct (String.eqb symbol "") eqn:Hs; [done|]. apply String.eqb_neq in Hs.
  destruct (n _) as [b|]; [|done]. destruct (n _) as [a|]; [|done].
  destruct (n _) as [l|]; [|done]. destruct (Number _) as [t|]; [|done].
  simpl. by intros [= <-].
Qed.

Lemma coerce_numbers m c :
  coerce m = Normal (Some c) →
  n (extracted bid_keys m) = Normal (c_bid c)
  ∧ n (extracted ask_keys m) = Normal (c_ask c)
  ∧ n (extracted last_keys m) = Normal (c_last c)
  ∧ Number (extracted time_keys m) = Normal (c_time c).
Proof.
  unfold coerce. destruct (resolved_symbol m) as [symbol|e]; [|done]. simpl.
  destruct (String.eqb symbol ""); [done|].
  destruct (n _) as [b|]; [|done]. destruct (n _) as [a|]; [|done].
  destruct (n _) as [l|]; [|done]. destruct (Number _) as [t|]; [|done].
  simpl. by intros [= <-].
Qed.

Lemma processQuoteLikeEvent_exec m c st :
  coerce m = Normal (Some c) →
  exec (processQuoteLikeEvent m) st = merge_coerced c st
  ∧ eval (processQuoteLikeEvent m) st = Normal tt.
Proof. intros Hc. unfold exec, eval. by rewrite processQuoteLikeEvent_run, Hc. Qed.

(** What the normaliser throws, it throws before it changes anything. *)
Lemma processQuoteLikeEvent_throws m e st :
  eval (processQuoteLikeEvent m) st = Throw e → exec (processQuoteLikeEvent m) st = st.
Proof.
  unfold exec, eval. rewrite processQuoteLikeEvent_run.
  by destruct (coerce m) as [[c|]|].
Qed.

Lemma n_normal v b :
  n v = Normal b → ∃ x, Number v = Normal x ∧ b = if isFinite x then x else NaN.
Proof.
  unfold n. destruct (Number v) as [x|e]; [|done]. simpl. intros [= <-]. eauto.
Qed.

Lemma merge_n b x c :
  b = (if isFinite x then x else NaN) →
  merge_field (finite_or_undefined b) c = if isFinite x then Some x else c.
Proof.
  intros ->. unfold finite_or_undefined, merge_field.
  destruct (isFinite x) eqn:Hfin; rewrite ?Hfin; done.
Qed.

Lemma merge_coerced_quotes c st :
  c_symbol c ≠ "" →
  ∃ t st0, quotes st0 = quotes st ∧ wire st0 = wire st ∧ gone st0 = gone st
    ∧ subs st0 = subs st
    ∧ merge_coerced c st = exec (touchQuote (c_symbol c) (delta c t)) st0
    ∧ t = (if Num.truthy (c_time c) then c_time c else wall (ticks st))
    ∧ ticks st0 = (if Num.truthy (c_time c) then ticks st else S (ticks st)).
Proof.
  intros Hne. unfold merge_coerced.
  destruct (Num.truthy (c_time c)).
  - by exists (c_time c), st.
  - by exists (wall (ticks st)), (set_ticks (S (ticks st)) st).
Qed.

Lemma merge_coerced_stored fld pf c st :
  c_symbol c ≠ "" →
  (∀ s p st0, fld (merged s p st0) = merge_field (pf p) (stored fld st0 s)) →
  ∃ t, stored fld (merge_coerced c st) (c_symbol c)
       = merge_field (pf (delta c t)) (stored fld st (c_symbol c)).
Proof.
  intros Hne Hfld.
  destruct (merge_coerced_quotes c st Hne) as (t & st0 & Hq & _ & _ & _ & -> & _).
  exists t. rewrite (touchQuote_stored fld pf) by (done || intros; apply Hfld).
  unfold stored. by rewrite Hq.
Qed.

Lemma touchQuote_surroundings symbol patch st :
  same_surroundings st (exec (touchQuote symbol patch) st).
Proof.
  destruct (decide (symbol = "")) as [->|Hne]; [done|].
  rewrite touchQuote_exec, pushQuote_exec by done. simpl.
  by rewrite lookup_insert_eq.
Qed.

Lemma merge_coerced_surroundings c st : same_surroundings st (merge_coerced c st).
Proof.
  unfold merge_coerced. destruct (Num.truthy (c_time c)).
  - apply touchQuote_surroundings.
  - by destruct (touchQuote_surroundings (c_symbol c) (delta c (wall (ticks st)))
                   (set_ticks (S (ticks st)) st)) as (? & ? & ? & ? & ? & ? & ?).
Qed.

(** For an event whose coercions throw nothing: the raw value
    extracted for bid, ask or last is coerced with [Number]; when the
    result is not finite the field is absent from the delta and the
    stored field is what it was before the event, and when it is
    finite, zero included, that number is stored. *)
Lemma coerced_fields_stored m c st :
  coerce m = Normal (Some c) →
  let symbol := c_symbol c in
  let st' := exec (processQuoteLikeEvent m) st in
  ∃ xb xa xl,
    Number (extracted bid_keys m) = Normal xb
    ∧ Number (extracted ask_keys m) = Normal xa
    ∧ Number (extracted last_keys m) = Normal xl
    ∧ stored bid st' symbol = (if isFinite xb then Some xb else stored bid st symbol)
    ∧ stored ask st' symbol = (if isFinite xa then Some xa else stored ask st symbol)
    ∧ stored last st' symbol = (if isFinite xl then Some xl else stored last st symbol)
    ∧ (∀ t, (isFinite xb = false → p_bid (delta c t) = None)
            ∧ (isFinite xa = false → p_ask (delta c t) = None)
            ∧ (isFinite xl = false → p_last (delta c t) = None))
    ∧ exited st' = exited st.
Proof.
  intros Hc symbol st'. subst symbol st'.
  destruct (coerce_symbol m c Hc) as [_ Hne].
  destruct (coerce_numbers m c Hc) as (Hb & Ha & Hl & _).
  destruct (processQuoteLikeEvent_exec m c st Hc) as [-> _].
  apply n_normal in Hb as (xb & Hxb & Hb), Ha as (xa & Hxa & Ha), Hl as (xl & Hxl & Hl).
  exists xb, xa, xl. split; [done|]. split; [done|]. split; [done|].
  destruct (merge_coerced_stored bid p_bid c st Hne) as (tb & ->); [done|].
  destruct (merge_coerced_stored ask p_ask c st Hne) as (ta & ->); [done|].
  destruct (merge_coerced_stored last p_last c st Hne) as (tl & ->); [done|].
  simpl. rewrite (merge_n _ xb), (merge_n _ xa), (merge_n _ xl) by done.
  split; [done|]. split; [done|]. split; [done|]. split.
  - intros t. unfold delta, finite_or_undefined. simpl. rewrite Hb, Ha, Hl.
    repeat split; intros ->; done.
  - by destruct (merge_coerced_surroundings c st) as (_ & _ & _ & _ & _ & -> & _).
Qed.

Lemma on_stream_run m st :
  on_stream m st =
  match stream_coerce m with
  | Throw e => (Throw e, stamped st)
  | Normal None => (Normal tt, stamped st)
  | Normal (Some c) => (Normal tt, merge_coerced c (stamped st))
  end.
Proof.
  unfold on_stream, stream_coerce, stamped, Date_now, modify, bind.
  rewrite try_bind_ret. destruct (quote_like m) as [[|]|e]; simpl; [|done|done].
  apply processQuoteLikeEvent_run.
Qed.

(** The state after one upstream event. *)
Lemma handle_stream m st :
  exec (handle (Stream m)) st =
  match stream_coerce m with
  | Throw _ => set_exited 1 (stamped st)
  | Normal None => stamped st
  | Normal (Some c) => merge_coerced c (stamped st)
  end.
Proof.
  simpl handle. rewrite exec_listener. unfold eval, exec. rewrite on_stream_run.
  by destruct (stream_coerce m) as [[c|]|e].
Qed.

(** C4, where the code departs from it.  The bid of the event
    [{ type: "QUOTE", symbol: "EURUSD", bid: { toString: 1 }, ask: 2 }]
    fails numeric coercion: [Number] throws.  The field is not treated
    as absent: the normaliser is left by the exception before the
    merge, so the ask of the event is not stored and nothing is
    broadcast, and the exception ends the process with code 1. *)
Theorem unprintable_bid_ends_process st :
  let st' := exec (handle (Stream unprintable_bid_event)) st in
  n (extracted bid_keys unprintable_bid_event) = Throw TypeError
  ∧ eval (processQuoteLikeEvent unprintable_bid_event) st = Throw TypeError
  ∧ quotes st' = quotes st
  ∧ wire st' = wire st
  ∧ exited st' = Some 1%Z.
Proof.
  intros st'. subst st'. rewrite handle_stream.
  unfold eval. rewrite processQuoteLikeEvent_run. done.
Qed.

(** C7, as the code has it.  A merge stores the [time] of the delta
    when it is truthy, and otherwise its own clock reading.  For an
    event it merges, the normaliser hands on the coerced upstream time
    when that is truthy, that is a number other than zero and [NaN];
    when the upstream time is absent, coerces to [NaN] or is zero, the
    stored time is a clock reading (that of the normaliser, or that of
    the merge if the former is falsy). *)
Theorem stored_time m c symbol patch st :
  (symbol ≠ "" →
   time <$> quotes (exec (touchQuote symbol patch) st) !! symbol
   = Some (time_or (p_time patch) (wall (ticks st))))
  ∧ (coerce m = Normal (Some c) →
     ∃ t, Number (extracted time_keys m) = Normal t
       ∧ resolved_symbol m = Normal (c_symbol c)
       ∧ time <$> quotes (exec (processQuoteLikeEvent m) st) !! c_symbol c
         = Some (if Num.truthy t then t
                 else or_else (wall (ticks st)) (wall (S (ticks st))))).
Proof.
  split.
  - intros Hne. by rewrite touchQuote_quotes, lookup_insert_eq.
  - intros Hc. exists (c_time c).
    destruct (coerce_symbol m c Hc) as [Hs Hne].
    destruct (coerce_numbers m c Hc) as (_ & _ & _ & Ht).
    destruct (processQuoteLikeEvent_exec m c st Hc) as [-> _].
    split; [done|]. split; [done|]. unfold merge_coerced.
    destruct (Num.truthy (c_time c)) eqn:Htr;
      rewrite touchQuote_quotes, lookup_insert_eq by done; simpl; [|done].
    unfold or_else. by rewrite Htr.
Qed.

Lemma absent_alias_not_present src k :
  ¬ has_value src k → present (walk src [k]) = false.
Proof.
  intros Hno. simpl. destruct (truthy src); [|done].
  destruct (own_property src k) as [v|] eqn:Hv; [|done].
  destruct (present v) eqn:Hp; [|done].
  exfalso. apply Hno. exists v. split; [done|].
  destruct v as [| | | |s| |]; try done.
  repeat split; try done. intros [= ->]. done.
Qed.

(** C9. An event in whose quote body no symbol alias is present with
    a value other than [undefined], [null] and the empty string
    leaves the whole state as it was: the store is unchanged, nothing
    is written to any subscriber, the process does not exit, and
    nothing is thrown. *)
Theorem unresolved_symbol_is_ignored m st :
  (∀ k, k ∈ symbol_keys → ¬ has_value (quote_body m) k) →
  exec (processQuoteLikeEvent m) st = st
  ∧ eval (processQuoteLikeEvent m) st = Normal tt.
Proof.
  intros Hno.
  assert (Hfirst : first (quote_body m) symbol_keys = JUndef).
  { unfold symbol_keys in *. cbn [first JsString.split Ascii.eqb Bool.eqb].
    rewrite !absent_alias_not_present; [done|..];
      apply Hno; repeat (try apply list_elem_of_here; apply list_elem_of_further). }
  unfold exec, eval. rewrite processQuoteLikeEvent_run.
  unfold coerce, resolved_symbol. by rewrite Hfirst.
Qed.

(** *** Watchdog *)

Lemma watchdog_exec connected st :
  exec (watchdog connected) st =
  if negb (Num.truthy (STALE_MS cfg)) then st
  else if negb connected then
    if Num.gt (elapsed st) (STALE_MS cfg)
    then set_exited 1 (set_ticks (S (ticks st)) st)
    else set_ticks (S (ticks st)) st
  else st.
Proof.
  unfold watchdog. destruct (negb (Num.truthy (STALE_MS cfg))); [done|].
  destruct (negb connected); [|done].
  rewrite exec_bind. unfold Date_now at 1 2, exec at 2, eval at 1.
  cbn [fst snd]. rewrite exec_bind. unfold gets at 1 2, exec at 2, eval at 1.
  cbn [fst snd]. unfold elapsed.
  cbn [lastBrandEventAt set_ticks].
  by destruct (Num.gt _ _).
Qed.

Lemma watchdog_disabled connected st :
  Num.truthy (STALE_MS cfg) = false → exec (watchdog connected) st = st.
Proof. intros Hoff. by rewrite watchdog_exec, Hoff. Qed.

(** C6. A run of the watchdog in a live process makes it exit, with
    code 1, exactly when the threshold [STALE_MS] is truthy, the socket
    is not connected and the age the watchdog computes exceeds the
    threshold.  With a threshold of 120000 it exits when the socket is
    not connected and the age is 121000, and does not when the age is
    119000.  With a threshold of zero it does nothing. *)
Theorem watchdog_fires_when_stale connected st :
  exited st = None →
  let st' := exec (watchdog connected) st in
  (exited st' ≠ None ↔
     Num.truthy (STALE_MS cfg) = true ∧ connected = false
     ∧ Num.gt (elapsed st) (STALE_MS cfg) = true)
  ∧ (exited st' ≠ None → exited st' = Some 1%Z)
  ∧ (STALE_MS cfg = of_Z 120000 → connected = false →
     elapsed st = of_Z 121000 → exited st' = Some 1%Z)
  ∧ (STALE_MS cfg = of_Z 120000 → elapsed st = of_Z 119000 → exited st' = None)
  ∧ (STALE_MS cfg = zero → st' = st).
Proof.
  intros Hlive st'. subst st'. rewrite watchdog_exec.
  split; [|split; [|split; [|split]]].
  - destruct (Num.truthy (STALE_MS cfg)); simpl; [|by split; [|intros [? _]]].
    destruct connected; simpl; [by split; [|intros (_ & ? & _)]|].
    destruct (Num.gt (elapsed st) (STALE_MS cfg)); simpl; [done|].
    by split; [|intros (_ & _ & ?)].
  - destruct (negb (Num.truthy (STALE_MS cfg))); [done|].
    destruct (negb connected); [|done].
    by destruct (Num.gt (elapsed st) (STALE_MS cfg)).
  - intros -> -> ->. done.
  - intros -> ->. by destruct connected.
  - intros ->. done.
Qed.

(** *** Snapshots *)

Lemma collect_rounds_miss f (l : list (string * Quote)) acc s :
  s ∉ l.*1 ∨ s = "__proto__" ∨ skips f s = true →
  foldl (collect_round f) acc l !! s = acc !! s.
Proof.
  revert acc. induction l as [|[k q] l IH]; intros acc Hmiss; [done|].
  simpl. rewrite IH.
  - destruct (skips f k) eqn:Hk; [done|]. unfold obj_set.
    destruct (String.eqb k "__proto__") eqn:Hp; [done|].
    destruct (decide (k = s)) as [->|Hks]; [|by rewrite lookup_insert_ne].
    destruct Hmiss as [Hnotin|[->|Hskip]].
    + exfalso. apply Hnotin. simpl. apply list_elem_of_here.
    + done.
    + congruence.
  - destruct Hmiss as [Hnotin|Hother]; [|by right].
    left. intros Hin. apply Hnotin. simpl. by apply list_elem_of_further.
Qed.

Lemma collect_rounds_hit f (l : list (string * Quote)) acc s q :
  NoDup l.*1 → (s, q) ∈ l → s ≠ "__proto__" → skips f s = false →
  foldl (collect_round f) acc l !! s = Some q.
Proof.
  revert acc. induction l as [|[k q'] l IH]; intros acc Hnd Hin Hp Hsk.
  - by apply elem_of_nil in Hin.
  - simpl in Hnd. apply NoDup_cons in Hnd as [Hk Hnd].
    apply elem_of_cons in Hin as [[= <- <-]|Hin].
    + simpl. rewrite collect_rounds_miss by (by left).
      rewrite Hsk. unfold obj_set. apply String.eqb_neq in Hp. rewrite Hp.
      apply lookup_insert_eq.
    + simpl. by apply IH.
Qed.

(** What the loop of the two routes collects: the stored symbols that
    the filter lets through, except [__proto__]. *)
Lemma collect_lookup f qs s :
  collect f qs !! s =
  if String.eqb s "__proto__" then None
  else if skips f s then None else qs !! s.
Proof.
  unfold collect.
  destruct (String.eqb s "__proto__") eqn:Hp.
  { apply String.eqb_eq in Hp. rewrite collect_rounds_miss by auto. done. }
  destruct (skips f s) eqn:Hsk.
  { rewrite collect_rounds_miss by auto. done. }
  apply String.eqb_neq in Hp.
  destruct (qs !! s) as [q|] eqn:Hq.
  - apply collect_rounds_hit; [apply NoDup_fst_map_to_list| |done|done].
    by apply elem_of_map_to_list.
  - rewrite collect_rounds_miss; [done|]. left.
    intros Hin. apply list_elem_of_fmap in Hin as ([k q] & -> & Hin).
    apply elem_of_map_to_list in Hin. simpl in Hq. congruence.
Qed.

Lemma checkToken_run req st :
  checkToken req st =
  match authorized req with
  | Normal true => (Normal true, st)
  | Normal false =>
      (Normal false,
       set_wire (fun w => w ++ [mkWrite (r_res req) Unauthorized
                                  (outcome_on st (r_res req))]) st)
  | Throw e => (Throw e, st)
  end.
Proof.
  unfold checkToken, authorized. fold (provided_token req).
  destruct (String.eqb (READ_TOKEN cfg) ""); [done|].
  rewrite try_bind_ret. destruct (provided_token req) as [provided|e]; [|done]. simpl.
  by destruct (String.eqb provided (READ_TOKEN cfg)).
Qed.

(** The two routes: a refused request gets the 401 answer, and what
    the token check or the parsing of the filter throws is thrown
    before anything is written. *)
Lemma get_quotes_state_run req st :
  get_quotes_state req st =
  match authorized req with
  | Normal true =>
      match requested_filter req with
      | Normal f =>
          let out := collect f (quotes st) in
          (Normal tt,
           exec (res_write (r_res req) (StateJson (wall (ticks st)) (size out) out))
                (set_ticks (S (ticks st)) st))
      | Throw e => (Throw e, st)
      end
  | Normal false =>
      (Normal tt,
       set_wire (fun w => w ++ [mkWrite (r_res req) Unauthorized
                                  (outcome_on st (r_res req))]) st)
  | Throw e => (Throw e, st)
  end.
Proof.
  unfold get_quotes_state. rewrite try_bind_run. unfold eval, exec at 1 2.
  rewrite checkToken_run. fold (requested_filter req).
  destruct (authorized req) as [[|]|e]; simpl; [|done|done].
  rewrite try_bind_ret. destruct (requested_filter req) as [f|e]; [|done].
  by rewrite lift_run.
Qed.

Lemma get_quotes_stream_run req st :
  get_quotes_stream req st =
  match authorized req with
  | Normal true =>
      match requested_filter req with
      | Normal f =>
          let r := r_res req in
          (Normal tt,
           set_subs (fun ss => ss ++ [mkSub r f (next_timer st)])
             (set_timers (fun t => {[ next_timer st ]} ∪ t) (S (next_timer st))
                (set_wire (fun w => w ++ [mkWrite r (Hello true (TYPE cfg)) (outcome_on st r);
                                          mkWrite r (SnapshotAll (wall (ticks st))
                                                       (collect f (quotes st)))
                                            (outcome_on st r)])
                   (set_ticks (S (ticks st)) st))))
      | Throw e => (Throw e, st)
      end
  | Normal false =>
      (Normal tt,
       set_wire (fun w => w ++ [mkWrite (r_res req) Unauthorized
                                  (outcome_on st (r_res req))]) st)
  | Throw e => (Throw e, st)
  end.
Proof.
  unfold get_quotes_stream. rewrite try_bind_run. unfold eval, exec at 1 2.
  rewrite checkToken_run. fold (requested_filter req).
  destruct (authorized req) as [[|]|e]; simpl; [|done|done].
  rewrite try_bind_ret. destruct (requested_filter req) as [f|e]; [|done].
  rewrite lift_run. f_equal.
  destruct st. unfold exec, set_subs, set_timers, set_wire, set_ticks. simpl.
  by rewrite <- app_assoc.
Qed.

Lemma get_quotes_state_exec req f st :
  authorized req = Normal true → requested_filter req = Normal f →
  exec (get_quotes_state req) st =
  let out := collect f (quotes st) in
  exec (res_write (r_res req) (StateJson (wall (ticks st)) (size out) out))
       (set_ticks (S (ticks st)) st).
Proof. intros Hok Hf. unfold exec at 1. by rewrite get_quotes_state_run, Hok, Hf. Qed.

(** The state route, for a request that passes the token check and
    whose filter is parsed, answers with the stored quotes the filter
    lets through, [__proto__] left out, and changes none of the
    module-level variables. *)
Lemma get_quotes_state_answer req f st :
  authorized req = Normal true → requested_filter req = Normal f →
  let st' := exec (get_quotes_state req) st in
  (∃ out, issued st st'
          = [mkWrite (r_res req) (StateJson (wall (ticks st)) (size out) out)
               (if decide (r_res req ∈ gone st) then Lost else Sent)]
          ∧ ∀ s, s ≠ "__proto__" →
                 out !! s = if decide (accepts f s) then quotes st !! s else None)
  ∧ quotes st' = quotes st ∧ subs st' = subs st
  ∧ lastBrandEventAt st' = lastBrandEventAt st.
Proof.
  intros Hok Hf st'. subst st'. rewrite (get_quotes_state_exec req f) by done.
  split; [|done].
  exists (collect f (quotes st)). split.
  - unfold issued. simpl. by rewrite drop_app_length.
  - intros s Hs. rewrite collect_lookup.
    apply String.eqb_neq in Hs. rewrite Hs.
    destruct (decide (accepts f s)) as [Hacc|Hacc].
    + apply skips_accepts in Hacc. by rewrite Hacc.
    + destruct (skips f s) eqn:Hsk; [done|]. by apply skips_accepts in Hsk.
Qed.

(** *** The registry *)

Lemma get_quotes_stream_exec req f st :
  authorized req = Normal true → requested_filter req = Normal f →
  exec (get_quotes_stream req) st =
  let r := r_res req in
  set_subs (fun ss => ss ++ [mkSub r f (next_timer st)])
    (set_timers (fun t => {[ next_timer st ]} ∪ t) (S (next_timer st))
       (set_wire (fun w => w ++ [mkWrite r (Hello true (TYPE cfg)) (outcome_on st r);
                                 mkWrite r (SnapshotAll (wall (ticks st))
                                              (collect f (quotes st)))
                                   (outcome_on st r)])
          (set_ticks (S (ticks st)) st))).
Proof. intros Hok Hf. unfold exec at 1. by rewrite get_quotes_stream_run, Hok, Hf. Qed.

(** A request either enters the registry, last, or leaves it as it
    is. *)
Lemma get_quotes_stream_subs req st :
  subs (exec (get_quotes_stream req) st) = subs st
  ∨ ∃ f h, subs (exec (get_quotes_stream req) st) = subs st ++ [mkSub (r_res req) f h].
Proof.
  unfold exec. rewrite get_quotes_stream_run.
  destruct (authorized req) as [[|]|e]; [|by left|by left].
  destruct (requested_filter req) as [f|e]; [|by left].
  right. simpl. eauto.
Qed.

(** A new subscriber on a response no entry holds keeps the entries of
    the registry on distinct responses, and so does a close. *)
Lemma get_quotes_stream_distinct req st :
  NoDup (res <$> subs st) → r_res req ∉ res <$> subs st →
  NoDup (res <$> subs (exec (get_quotes_stream req) st)).
Proof.
  intros Hnd Hfresh.
  destruct (get_quotes_stream_subs req st) as [->|(f & h & ->)]; [done|].
  rewrite fmap_app. apply NoDup_app. split; [done|]. split.
  - intros r Hr Hin. apply list_elem_of_singleton in Hin. simpl in Hin. by subst r.
  - apply NoDup_singleton.
Qed.

Lemma on_close_distinct sub st :
  NoDup (res <$> subs st) → NoDup (res <$> subs (exec (on_close sub) st)).
Proof.
  rewrite on_close_exec. simpl. generalize (subs st). intros ss.
  induction ss as [|s ss IH]; [done|].
  rewrite fmap_cons. intros [Hnotin Hnd]%NoDup_cons. simpl.
  destruct (negb (Nat.eqb (res s) (res sub))); [|by apply IH].
  rewrite fmap_cons. apply NoDup_cons. split; [|by apply IH].
  intros Hin. apply Hnotin.
  apply list_elem_of_fmap in Hin as (s' & -> & Hin).
  apply list_elem_of_In, filter_In in Hin as [Hin _].
  by apply list_elem_of_fmap_2, list_elem_of_In.
Qed.

(** *** The stream listener *)

(** Whatever the event, the stream listener leaves the registry, the
    intervals and the last connect error alone, and by itself does not
    end the process. *)
Lemma on_stream_surroundings m st :
  subs (exec (on_stream m) st) = subs st
  ∧ timers (exec (on_stream m) st) = timers st
  ∧ next_timer (exec (on_stream m) st) = next_timer st
  ∧ exited (exec (on_stream m) st) = exited st
  ∧ gone (exec (on_stream m) st) = gone st
  ∧ lastConnectError (exec (on_stream m) st) = lastConnectError st.
Proof.
  unfold exec. rewrite on_stream_run.
  destruct (stream_coerce m) as [[c|]|e]; [|done|done]. simpl.
  destruct (merge_coerced_surroundings c (stamped st)) as (Hs & _ & Hg & Ht & Hn & He & Hl).
  by rewrite Hs, Hg, Ht, Hn, He, Hl.
Qed.

(** Every upstream event, quote-like or not, stamps
    [lastBrandEventAt] with the clock reading. *)
Lemma on_stream_stamps m st :
  lastBrandEventAt (exec (on_stream m) st) = wall (ticks st).
Proof.
  unfold exec. rewrite on_stream_run.
  destruct (stream_coerce m) as [[c|]|e]; [|done|done]. simpl.
  by destruct (merge_coerced_surroundings c (stamped st)) as (_ & -> & _).
Qed.

Lemma handle_stream_surroundings m st :
  subs (exec (handle (Stream m)) st) = subs st
  ∧ timers (exec (handle (Stream m)) st) = timers st
  ∧ next_timer (exec (handle (Stream m)) st) = next_timer st
  ∧ gone (exec (handle (Stream m)) st) = gone st
  ∧ lastConnectError (exec (handle (Stream m)) st) = lastConnectError st.
Proof.
  simpl handle. rewrite exec_listener.
  destruct (on_stream_surroundings m st) as (Hs & Ht & Hn & _ & Hg & Hl).
  by destruct (eval (on_stream m) st).
Qed.

(** *** Who leaves the registry *)

Lemma watchdog_subs connected st : subs (exec (watchdog connected) st) = subs st.
Proof.
  rewrite watchdog_exec. destruct (negb _); [done|].
  destruct (negb connected); [|done]. by destruct (Num.gt _ _).
Qed.

Lemma get_quotes_state_subs req st : subs (exec (get_quotes_state req) st) = subs st.
Proof.
  unfold exec. rewrite get_quotes_state_run.
  destruct (authorized req) as [[|]|e]; [|done|done].
  by destruct (requested_filter req).
Qed.

Lemma get_quotes_stream_keeps req st sub :
  sub ∈ subs st → sub ∈ subs (exec (get_quotes_stream req) st).
Proof.
  intros Hin. destruct (get_quotes_stream_subs req st) as [->|(f & h & ->)]; [done|].
  apply elem_of_app. by left.
Qed.

Lemma handle_keeps_subscriber sub e st :
  not_close_of sub e → sub ∈ subs st → sub ∈ subs (exec (handle e) st).
Proof.
  intros Hother Hin. destruct e as [m|connected|req|req|s|s| |err|].
  - by destruct (handle_stream_surroundings m st) as (-> & _).
  - simpl. by rewrite watchdog_subs.
  - simpl. rewrite exec_route. by apply get_quotes_stream_keeps.
  - simpl. by rewrite exec_route, get_quotes_state_subs.
  - done.
  - apply on_close_subs. split; [done|]. intros Heq. by apply (Hother s).
  - done.
  - done.
  - done.
Qed.

(** Whatever runs, a subscriber stays in the registry until the close
    listener of its request runs. *)
Lemma run_keeps_subscriber sub events st :
  Forall (not_close_of sub) events → sub ∈ subs st →
  sub ∈ subs (exec (run events) st).
Proof.
  unfold run. intros Hother. revert st.
  induction Hother as [|e events He _ IH]; intros st Hin; [done|].
  simpl. rewrite exec_bind. by apply IH, handle_keeps_subscriber.
Qed.

(** C5, as the code has it.  A broadcast issues its write to every
    subscriber whose filter lets the symbol through, whatever happens
    to the writes of the others: one whose socket is there gets the
    update.  The broadcast changes neither the registry nor the
    intervals, and whatever runs afterwards, a subscriber stays
    registered until the close listener of its request runs; that
    listener takes it out of the registry and clears its interval. *)
Theorem write_failure_isolated symbol q st :
  quotes st !! symbol = Some q →
  let st' := exec (pushQuote symbol) st in
  (∀ sub, sub ∈ subs st → accepts (filter sub) symbol → res sub ∉ gone st →
     mkWrite (res sub) (Update (wall (ticks st)) symbol q) Sent ∈ issued st st')
  ∧ subs st' = subs st
  ∧ timers st' = timers st
  ∧ (∀ sub events, sub ∈ subs st → Forall (not_close_of sub) events →
       sub ∈ subs (exec (run events) st'))
  ∧ (∀ sub, let st2 := exec (on_close sub) st' in
       (∀ s, s ∈ subs st2 ↔ s ∈ subs st' ∧ res s ≠ res sub)
       ∧ ping sub ∉ timers st2).
Proof.
  intros Hq st'. subst st'.
  split; [|split; [|split; [|split]]].
  - intros sub Hin Hacc Hlive.
    rewrite pushQuote_issued with (q := q) by done.
    apply elem_of_fanout. exists sub. by rewrite decide_False.
  - apply pushQuote_subs.
  - apply pushQuote_timers.
  - intros sub events Hin Hother. apply run_keeps_subscriber; [done|].
    by rewrite pushQuote_subs.
  - intros sub st2. subst st2. split.
    + intros s. apply on_close_subs.
    + apply on_close_timers.
Qed.

(** *** The filter of a request *)

Lemma append_cons c (a b : string) : String c a +:+ b = String c (a +:+ b).
Proof. reflexivity. Qed.

Lemma append_empty (b : string) : "" +:+ b = b.
Proof. reflexivity. Qed.

Lemma split_not_nil sep s : JsString.split sep s ≠ [].
Proof.
  destruct s as [|c r]; simpl; [done|].
  destruct (Ascii.eqb c sep); [done|]. by destruct (JsString.split sep r).
Qed.

Lemma join_cons sep x xs :
  xs ≠ [] → JsString.join sep (x :: xs) = x +:+ sep +:+ JsString.join sep xs.
Proof. by destruct xs. Qed.

Lemma split_join s : JsString.join "," (JsString.split "," s) = s.
Proof.
  induction s as [|c r IH]; [done|]. simpl JsString.split.
  destruct (Ascii.eqb c ",") eqn:Hc.
  - apply Ascii.eqb_eq in Hc as ->.
    rewrite join_cons by apply split_not_nil. by rewrite IH.
  - destruct (JsString.split "," r) as [|tok toks] eqn:Hsplit.
    { by apply split_not_nil in Hsplit. }
    destruct toks as [|tok' toks]; simpl in *; by rewrite <- IH.
Qed.

Lemma split_no_comma s :
  Forall (fun t => no_comma t = true) (JsString.split "," s).
Proof.
  induction s as [|c r IH]; simpl.
  - by constructor.
  - destruct (Ascii.eqb c ",") eqn:Hc; [by constructor|].
    destruct (JsString.split "," r) as [|tok toks].
    + constructor; [|done]. simpl. by rewrite Hc.
    + apply Forall_cons in IH as [Htok Htoks].
      constructor; [|done]. simpl. by rewrite Hc.
Qed.

Lemma split_token t : no_comma t = true → JsString.split "," t = [t].
Proof.
  induction t as [|c t IH]; [done|]. simpl.
  intros [Hc Ht]%andb_true_iff. apply negb_true_iff in Hc. by rewrite Hc, IH.
Qed.

Lemma split_token_comma t rest :
  no_comma t = true →
  JsString.split "," (t +:+ String "," rest) = t :: JsString.split "," rest.
Proof.
  induction t as [|c t IH]; [done|].
  simpl no_comma. intros [Hc Ht]%andb_true_iff. apply negb_true_iff in Hc.
  rewrite append_cons. simpl JsString.split. by rewrite Hc, IH.
Qed.

(** A string has one list of comma-separated tokens, and [split]
    computes it. *)
Lemma comma_tokens_split s toks : comma_tokens s toks → JsString.split "," s = toks.
Proof.
  intros (<- & Hno & Hnil).
  induction toks as [|t ts IH]; [done|].
  apply Forall_cons in Hno as [Ht Hts].
  destruct ts as [|t' ts]; [by apply split_token|].
  rewrite join_cons by done.
  change ("," +:+ ?x) with (String "," x).
  rewrite split_token_comma by done. by rewrite IH.
Qed.

Lemma split_comma_tokens s : comma_tokens s (JsString.split "," s).
Proof.
  split; [apply split_join|]. split; [apply split_no_comma|apply split_not_nil].
Qed.

Lemma trimStart_prefix s :
  ∃ l, s = l +:+ JsString.trimStart s ∧ all_ws l = true.
Proof.
  induction s as [|c r (l & Hl & Hws)]; [by exists ""|]. simpl.
  destruct (JsString.is_ws c) eqn:Hc; [|by exists ""].
  exists (String c l). simpl. rewrite Hc, Hws, append_cons. split; [|done]. by f_equal.
Qed.

Lemma trimStart_first s c :
  first_char (JsString.trimStart s) = Some c → JsString.is_ws c = false.
Proof.
  induction s as [|a r IH]; [done|]. simpl.
  destruct (JsString.is_ws a) eqn:Ha; [done|]. simpl. by intros [= <-].
Qed.

Lemma trimEnd_suffix s :
  ∃ r, s = JsString.trimEnd s +:+ r ∧ all_ws r = true.
Proof.
  induction s as [|c s (r & Hr & Hws)]; [by exists ""|]. simpl.
  destruct (JsString.trimEnd s) as [|b u] eqn:Hu.
  - rewrite append_empty in Hr. subst r.
    destruct (JsString.is_ws c) eqn:Hc.
    + exists (String c s). simpl. by rewrite Hc, Hws.
    + by exists s.
  - exists r. rewrite append_cons. split; [|done]. by f_equal.
Qed.

Lemma trimEnd_last s c :
  last_char (JsString.trimEnd s) = Some c → JsString.is_ws c = false.
Proof.
  induction s as [|a s IH]; [done|]. simpl.
  destruct (JsString.trimEnd s) as [|b u] eqn:Hu.
  - destruct (JsString.is_ws a) eqn:Ha; [done|]. simpl. by intros [= <-].
  - intros Hlast. apply IH. done.
Qed.

Lemma trimEnd_first s c :
  (∀ a, first_char s = Some a → JsString.is_ws a = false) →
  first_char (JsString.trimEnd s) = Some c → JsString.is_ws c = false.
Proof.
  destruct s as [|a s]; [done|]. simpl. intros Hfirst.
  destruct (JsString.trimEnd s) as [|b u].
  - destruct (JsString.is_ws a); [done|]. simpl. intros [= <-]. by apply Hfirst.
  - simpl. intros [= <-]. by apply Hfirst.
Qed.

Lemma trim_trimmed_of t : trimmed_of t (JsString.trim t).
Proof.
  unfold JsString.trim.
  destruct (trimStart_prefix t) as (l & Hl & Hlws).
  destruct (trimEnd_suffix (JsString.trimStart t)) as (r & Hr & Hrws).
  exists l, r. repeat split; try done.
  - by rewrite <- Hr.
  - intros c. apply trimEnd_first. intros a. apply trimStart_first.
  - intros c. apply trimEnd_last.
Qed.

Lemma trimStart_ws l s :
  all_ws l = true → JsString.trimStart (l +:+ s) = JsString.trimStart s.
Proof.
  induction l as [|c l IH]; [done|]. simpl.
  intros [Hc Hl]%andb_true_iff. rewrite Hc. by apply IH.
Qed.

Lemma trimStart_clean s :
  (∀ c, first_char s = Some c → JsString.is_ws c = false) →
  JsString.trimStart s = s.
Proof.
  destruct s as [|c s]; [done|]. simpl. intros Hc. by rewrite (Hc c).
Qed.

Lemma trimEnd_ws r : all_ws r = true → JsString.trimEnd r = "".
Proof.
  induction r as [|c r IH]; [done|]. simpl.
  intros [Hc Hr]%andb_true_iff. by rewrite IH, Hc.
Qed.

Lemma trimEnd_clean u r :
  (∀ c, last_char u = Some c → JsString.is_ws c = false) →
  all_ws r = true → JsString.trimEnd (u +:+ r) = u.
Proof.
  intros Hlast Hr. induction u as [|c u IH]; [by apply trimEnd_ws|].
  simpl. destruct u as [|b u].
  - simpl. rewrite trimEnd_ws by done. by rewrite (Hlast c).
  - rewrite IH by (intros a Ha; by apply Hlast).
    done.
Qed.

Lemma trimStart_all_ws r : all_ws r = true → JsString.trimStart r = "".
Proof.
  induction r as [|c r IH]; [done|]. simpl.
  intros [Hc Hr]%andb_true_iff. rewrite Hc. by apply IH.
Qed.

(** Trimming is determined by its description. *)
Lemma trimmed_of_trim t u : trimmed_of t u → u = JsString.trim t.
Proof.
  intros (l & r & -> & Hl & Hr & Hfirst & Hlast). unfold JsString.trim.
  rewrite trimStart_ws by done.
  destruct u as [|c u].
  - by rewrite append_empty, trimStart_all_ws.
  - rewrite trimStart_clean.
    + by rewrite trimEnd_clean.
    + rewrite append_cons. simpl. intros a [= <-]. by apply Hfirst.
Qed.

Lemma parseSymbolsParam_string s :
  parseSymbolsParam (JStr s)
  = Normal (list_to_set (List.filter (fun x => negb (String.eqb x ""))
                           (List.map JsString.trim (JsString.split "," s)))).
Proof.
  unfold parseSymbolsParam, js_or. simpl.
  destruct (String.eqb s "") eqn:Hs; simpl; [|done].
  by apply String.eqb_eq in Hs as ->.
Qed.

Lemma elem_of_parseSymbolsParam s f x :
  parseSymbolsParam (JStr s) = Normal f →
  x ∈ f ↔ x ≠ "" ∧ ∃ t, t ∈ JsString.split "," s ∧ x = JsString.trim t.
Proof.
  rewrite parseSymbolsParam_string. intros [= <-].
  rewrite elem_of_list_to_set, list_elem_of_In, filter_In.
  rewrite in_map_iff, negb_true_iff, String.eqb_neq.
  split.
  - intros [(t & <- & Hin) Hne]. split; [done|]. exists t. by rewrite list_elem_of_In.
  - intros [Hne (t & Hin & ->)]. split; [|done]. exists t. by rewrite <- list_elem_of_In.
Qed.

Lemma parseSymbolsParam_array xs :
  parseSymbolsParam (JArr xs)
  = let? texts := element_texts xs in
    parseSymbolsParam (JStr (JsString.join "," texts)).
Proof.
  unfold parseSymbolsParam at 1. cbn [isArray]. rewrite ToString_array.
  destruct (element_texts xs) as [texts|e]; [|done]. cbn [and_then].
  rewrite parseSymbolsParam_string. unfold js_or. simpl.
  by destruct (String.eqb (JsString.join "," texts) "") eqn:Hs;
    simpl; [apply String.eqb_eq in Hs as ->|].
Qed.

Lemma element_texts_strings ss : element_texts (JStr <$> ss) = Normal ss.
Proof.
  induction ss as [|s ss IH]; [done|].
  rewrite fmap_cons. cbn [element_texts element_text]. by rewrite IH.
Qed.

Lemma ws_split s : all_ws s = true → JsString.split "," s = [s].
Proof.
  induction s as [|c s IH]; [done|]. simpl.
  intros [Hc Hs]%andb_true_iff.
  destruct (Ascii.eqb c ",") eqn:Hcomma.
  - apply Ascii.eqb_eq in Hcomma as ->. done.
  - by rewrite IH.
Qed.

Lemma ws_trim s : all_ws s = true → JsString.trim s = "".
Proof.
  intros Hs. unfold JsString.trim. by rewrite trimStart_all_ws.
Qed.

(** C10. The filter parsed from a string is the set of its
    comma-separated tokens, each without its leading and trailing
    white space, the empty ones dropped.  An array is first joined
    with commas: its filter is that of the join of the texts of its
    elements, for an array of strings the join of the strings, and
    what the text of an element throws is thrown.  A missing, empty or
    white-space-only parameter gives the empty filter, and the empty
    filter skips no symbol. *)
Theorem parseSymbolsParam_tokens :
  (∀ s toks, comma_tokens s toks →
     ∃ f, parseSymbolsParam (JStr s) = Normal f
          ∧ ∀ x, x ∈ f ↔ x ≠ "" ∧ ∃ t, t ∈ toks ∧ trimmed_of t x)
  ∧ (∀ xs, parseSymbolsParam (JArr xs)
           = let? texts := element_texts xs in
             parseSymbolsParam (JStr (JsString.join "," texts)))
  ∧ (∀ ss, parseSymbolsParam (JArr (JStr <$> ss))
           = parseSymbolsParam (JStr (JsString.join "," ss)))
  ∧ parseSymbolsParam JUndef = Normal ∅
  ∧ parseSymbolsParam (JStr "") = Normal ∅
  ∧ (∀ s, all_ws s = true → parseSymbolsParam (JStr s) = Normal ∅)
  ∧ (∀ symbol, skips ∅ symbol = false).
Proof.
  split; [|split; [|split; [|split; [|split; [|split]]]]].
  - intros s toks <-%comma_tokens_split. eexists. split; [apply parseSymbolsParam_string|].
    intros x. rewrite (elem_of_parseSymbolsParam s) by apply parseSymbolsParam_string.
    split.
    + intros [Hne (t & Hin & ->)]. split; [done|].
      exists t. split; [done|apply trim_trimmed_of].
    + intros [Hne (t & Hin & Htrim)]. split; [done|].
      exists t. split; [done|by apply trimmed_of_trim].
  - apply parseSymbolsParam_array.
  - intros ss. by rewrite parseSymbolsParam_array, element_texts_strings.
  - done.
  - done.
  - intros s Hs. rewrite parseSymbolsParam_string, ws_split, <- (ws_trim s) by done.
    simpl. by rewrite ws_trim.
  - intros symbol. apply skips_accepts. by left.
Qed.

(** ** Further properties *)

Set Warnings "-clear-no-such-hyp".

(** *** Alias resolution *)

Lemma present_not_undefined v : present v = true → v ≠ JUndef.
Proof. by destruct v. Qed.

(** X1. [first] returns the value under the first path whose value is
    neither [undefined], [null] nor the empty string, paths before it
    being passed over; it returns [undefined] exactly when no path has
    such a value; it never returns [null] or the empty string. *)
Theorem first_finds_first_present obj paths :
  (∀ v, present v = true →
     (first obj paths = v ↔
      ∃ pre p post, paths = pre ++ p :: post ∧ path_value obj p = v
        ∧ Forall (fun p' => present (path_value obj p') = false) pre))
  ∧ (first obj paths = JUndef ↔
     Forall (fun p => present (path_value obj p) = false) paths)
  ∧ first obj paths ≠ JNull ∧ first obj paths ≠ JStr "".
Proof.
  induction paths as [|p paths (IHv & IHu & IHn & IHe)].
  - split; [|split; [|done]].
    + intros v Hv. split.
      * simpl. intros <-. done.
      * intros (pre & p & post & Heq & _). by destruct pre.
    + split; [by constructor|done].
  - simpl first. fold (path_value obj p).
    destruct (present (path_value obj p)) eqn:Hp.
    + split; [|split; [|split]].
      * intros v Hv. split.
        -- intros <-. exists [], p, paths. by repeat split.
        -- intros (pre & p' & post & Heq & Hval & Hpre).
           destruct pre as [|p0 pre]; simpl in Heq; injection Heq as -> ->; [done|].
           apply Forall_cons in Hpre as [Hp0 _]. congruence.
      * split.
        -- intros Hu. rewrite Hu in Hp. done.
        -- intros [Hp' _]%Forall_cons. congruence.
      * intros Hn. by rewrite Hn in Hp.
      * intros He. by rewrite He in Hp.
    + split; [|split; [|done]].
      * intros v Hv. rewrite (IHv v Hv). split.
        -- intros (pre & p' & post & -> & Hval & Hpre).
           exists (p :: pre), p', post. repeat split; [done|]. by constructor.
        -- intros (pre & p' & post & Heq & Hval & Hpre).
           destruct pre as [|p0 pre]; simpl in Heq; injection Heq as -> ->.
           ++ congruence.
           ++ apply Forall_cons in Hpre as [_ Hpre]. by exists pre, p', post.
      * rewrite IHu. split; [by constructor|]. by intros [_ ?]%Forall_cons.
Qed.

(** *** What each handler leaves alone *)

Lemma stream_coerce_some m c :
  stream_coerce m = Normal (Some c) → coerce m = Normal (Some c).
Proof. unfold stream_coerce. by destruct (quote_like m) as [[|]|]. Qed.

Lemma route_effects req st :
  let st1 := exec (get_quotes_stream req) st in
  let st2 := exec (get_quotes_state req) st in
  (quotes st1 = quotes st ∧ lastBrandEventAt st1 = lastBrandEventAt st
   ∧ exited st1 = exited st ∧ lastConnectError st1 = lastConnectError st)
  ∧ (quotes st2 = quotes st ∧ lastBrandEventAt st2 = lastBrandEventAt st
     ∧ exited st2 = exited st ∧ subs st2 = subs st ∧ timers st2 = timers st
     ∧ next_timer st2 = next_timer st ∧ lastConnectError st2 = lastConnectError st).
Proof.
  unfold exec. rewrite get_quotes_stream_run, get_quotes_state_run.
  destruct (authorized req) as [[|]|e]; [|done|done].
  by destruct (requested_filter req).
Qed.

Lemma watchdog_effects connected st :
  let st' := exec (watchdog connected) st in
  quotes st' = quotes st ∧ lastBrandEventAt st' = lastBrandEventAt st
  ∧ subs st' = subs st ∧ timers st' = timers st ∧ next_timer st' = next_timer st
  ∧ wire st' = wire st ∧ lastConnectError st' = lastConnectError st.
Proof.
  cbn zeta. rewrite watchdog_exec. destruct (negb (Num.truthy _)); [done|].
  destruct (negb connected); [|done]. by destruct (Num.gt _ _).
Qed.

(** X2. Each module-level variable has its writers.  Only the stream
    listener changes the store and [lastBrandEventAt]; only the
    listeners of [connect] and [connect_error] change
    [lastConnectError]; only the stream route and the close listener
    change the registry and the intervals.  The process is ended by
    the watchdog and by the handler of [uncaughtException], with code
    1, and by nothing else; an upstream event on which a coercion of
    the stream listener throws reaches that handler. *)
Theorem one_writer_each e st :
  let st' := exec (handle e) st in
  (is_stream e = false →
     quotes st' = quotes st ∧ lastBrandEventAt st' = lastBrandEventAt st)
  ∧ (is_connect e = false → lastConnectError st' = lastConnectError st)
  ∧ (touches_registry e = false →
     subs st' = subs st ∧ timers st' = timers st ∧ next_timer st' = next_timer st)
  ∧ (is_watchdog e = false → is_uncaught e = false → exited st' = exited st)
  ∧ (is_uncaught e = true → exited st' = Some 1%Z).
Proof.
  intros st'. subst st'.
  destruct e as [m|connected|req|req|sub|sub| |err|].
  - destruct (handle_stream_surroundings m st) as (Hs & Ht & Hn & _ & Hl).
    split; [done|]. split; [done|]. split; [done|].
    rewrite handle_stream. simpl is_uncaught.
    destruct (stream_coerce m) as [[c|]|x]; split; try done. intros _ _.
    by destruct (merge_coerced_surroundings c (stamped st)) as (_ & _ & _ & _ & _ & -> & _).
  - destruct (watchdog_effects connected st) as (Hq & Hb & Hs & Ht & Hn & _ & Hl).
    simpl handle. done.
  - simpl handle. rewrite exec_route.
    destruct (route_effects req st) as [(Hq & Hl & He & Hc) _]. done.
  - simpl handle. rewrite exec_route.
    destruct (route_effects req st) as [_ (Hq & Hl & He & Hs & Ht & Hn & Hc)]. done.
  - done.
  - done.
  - done.
  - done.
  - done.
Qed.

(** *** The store under the event loop *)

(** The store after one event: unchanged, or one record put under the
    symbol of the event. *)
Lemma handle_quotes e st :
  match event_symbol e with
  | None => quotes (exec (handle e) st) = quotes st
  | Some s =>
      s ≠ "" ∧ ∃ patch st0, quotes st0 = quotes st
        ∧ quotes (exec (handle e) st) = <[s := merged s patch st0]> (quotes st)
  end.
Proof.
  destruct e as [m|connected|req|req|sub|sub| |err|]; simpl event_symbol; try done.
  - rewrite handle_stream.
    destruct (stream_coerce m) as [[c|]|x] eqn:Hc; [|done|done].
    apply stream_coerce_some, coerce_symbol in Hc as [_ Hne]. split; [done|].
    destruct (merge_coerced_quotes c (stamped st) Hne) as (t & st0 & Hq & _ & _ & _ & -> & _).
    exists (delta c t), st0. split; [done|].
    by rewrite touchQuote_quotes, Hq.
  - by destruct (watchdog_effects connected st) as (Hq & _).
  - simpl handle. rewrite exec_route. by destruct (route_effects req st) as [(Hq & _) _].
  - simpl handle. rewrite exec_route. by destruct (route_effects req st) as [_ (Hq & _)].
Qed.

Lemma merge_field_finite p c :
  finite_or_absent c → finite_or_absent (merge_field p c).
Proof.
  unfold merge_field. intros Hc. destruct p as [x|]; [|done].
  destruct (isFinite x) eqn:Hx; [|done]. by intros y [= <-].
Qed.

Lemma handle_store_ok e st : store_ok st → store_ok (exec (handle e) st).
Proof.
  intros Hok. pose proof (handle_quotes e st) as Hq.
  destruct (event_symbol e) as [s|].
  - destruct Hq as (Hs & patch & st0 & Hst0 & Heq).
    intros s' q. rewrite Heq. destruct (decide (s' = s)) as [->|Hne].
    + rewrite lookup_insert_eq. intros [= <-]. split; [done|].
      unfold merged, stored. simpl. rewrite Hst0.
      repeat split; apply merge_field_finite;
        destruct (quotes st !! s) as [q0|] eqn:Hq0; simpl; try done;
        by destruct (Hok s q0 Hq0) as (_ & Hb & Ha & Hl).
    + rewrite lookup_insert_ne by done. apply Hok.
  - unfold store_ok. by rewrite Hq.
Qed.

(** X3. Whatever events run, no record is ever stored under the empty
    symbol and every stored bid, ask and last is a finite number or
    absent: [NaN] and the infinities never reach the store. *)
Theorem store_stays_ok events st :
  store_ok st → store_ok (exec (run events) st).
Proof.
  unfold run. revert st. induction events as [|e events IH]; intros st Hok; [done|].
  simpl. rewrite exec_bind. by apply IH, handle_store_ok.
Qed.

Lemma handle_dom e st :
  dom (quotes (exec (handle e) st))
  = dom (quotes st) ∪ match event_symbol e with Some s => {[ s ]} | None => ∅ end.
Proof.
  pose proof (handle_quotes e st) as Hq.
  destruct (event_symbol e) as [s|].
  - destruct Hq as (_ & patch & st0 & _ & ->). rewrite dom_insert_L. set_solver.
  - rewrite Hq. set_solver.
Qed.

Lemma run_dom events st :
  dom (quotes (exec (run events) st)) = dom (quotes st) ∪ symbols_seen events.
Proof.
  unfold run, symbols_seen. revert st.
  induction events as [|e events IH]; intros st.
  - simpl. set_solver.
  - simpl for_of. rewrite exec_bind, IH, handle_dom. simpl omap.
    destruct (event_symbol e) as [s|]; simpl; set_solver.
Qed.

(** The symbol of an event is stored exactly when the event is an
    upstream event that is quote-like, resolves that symbol, not
    empty, and whose coercions throw nothing. *)
Lemma event_symbol_spec e s :
  event_symbol e = Some s ↔
  ∃ m, e = Stream m ∧ quote_like m = Normal true
       ∧ resolved_symbol m = Normal s ∧ s ≠ ""
       ∧ ∃ c, coerce m = Normal (Some c).
Proof.
  split.
  - destruct e as [m|connected|req|req|sub|sub| |err|]; simpl; try done.
    destruct (stream_coerce m) as [[c|]|x] eqn:Hc; try done. intros [= <-].
    exists m. split; [done|]. pose proof (stream_coerce_some m c Hc) as Hco.
    destruct (coerce_symbol m c Hco) as [Hs Hne].
    unfold stream_coerce in Hc. destruct (quote_like m) as [[|]|]; try done. eauto 6.
  - intros (m & -> & Hlike & Hs & Hne & c & Hc). simpl.
    unfold stream_coerce. rewrite Hlike. simpl. rewrite Hc.
    destruct (coerce_symbol m c Hc) as [Hs' _]. congruence.
Qed.

(** X4. The store only grows.  After any run of events the stored
    symbols are those stored before together with the non-empty
    symbols of the quote-like upstream events of the run whose
    coercions throw nothing; no record is ever removed, and [/health]
    reports their number. *)
Theorem store_only_grows events st :
  let st' := exec (run events) st in
  dom (quotes st') = dom (quotes st) ∪ symbols_seen events
  ∧ (∀ s, is_Some (quotes st !! s) → is_Some (quotes st' !! s))
  ∧ (h_symbols (eval get_health st) ≤ h_symbols (eval get_health st'))%nat
  ∧ h_symbols (eval get_health st') = size (dom (quotes st) ∪ symbols_seen events)
  ∧ (∀ s, s ∈ symbols_seen events ↔
       ∃ m c, Stream m ∈ events ∧ quote_like m = Normal true
              ∧ coerce m = Normal (Some c) ∧ c_symbol c = s).
Proof.
  intros st'. subst st'. pose proof (run_dom events st) as Hdom.
  split; [done|]. split; [|split; [|split]].
  - intros s Hs. apply elem_of_dom. rewrite Hdom. apply elem_of_union. left.
    by apply elem_of_dom.
  - simpl. rewrite <- !size_dom. apply subseteq_size. rewrite Hdom. set_solver.
  - simpl. by rewrite <- size_dom, Hdom.
  - intros s. unfold symbols_seen. rewrite elem_of_list_to_set, list_elem_of_omap. split.
    + intros (e & Hin & (m & -> & Hlike & Hs & Hne & c & Hc)%event_symbol_spec).
      exists m, c. repeat split; try done.
      destruct (coerce_symbol m c Hc) as [Hs' _]. congruence.
    + intros (m & c & Hin & Hlike & Hc & <-). exists (Stream m). split; [done|].
      apply event_symbol_spec. exists m.
      destruct (coerce_symbol m c Hc) as [Hs Hne]. eauto 8.
Qed.

(** *** Merges over several symbols *)

Lemma touchQuote_other_record s symbol patch st :
  s ≠ symbol → quotes (exec (touchQuote s patch) st) !! symbol = quotes st !! symbol.
Proof.
  intros Hs. destruct (decide (s = "")) as [->|Hne]; [done|].
  by rewrite touchQuote_quotes, lookup_insert_ne.
Qed.

Lemma run_merges_other_record symbol ops st :
  deltas_for symbol ops = [] →
  quotes (exec (run_merges ops) st) !! symbol = quotes st !! symbol.
Proof.
  unfold run_merges, deltas_for. revert st.
  induction ops as [|[s d] ops IH]; intros st Hnone; [done|].
  simpl in Hnone. simpl for_of. rewrite exec_bind.
  destruct (String.eqb s symbol) eqn:Hs; [done|].
  apply String.eqb_neq in Hs. rewrite IH by done. by apply touchQuote_other_record.
Qed.

(** X5. In a run of merges over any symbols, each of bid, ask and last
    of one symbol ends as the latest finite value among the deltas for
    that symbol, or as it was before the run when there is none; the
    deltas for other symbols do not count, and a run without a delta
    for the symbol leaves its record, time included, as it was. *)
Theorem merges_are_per_symbol symbol ops st :
  symbol ≠ "" →
  let st' := exec (run_merges ops) st in
  let latest pf fld :=
    match latest_finite (pf <$> deltas_for symbol ops) with
    | Some x => Some x
    | None => stored fld st symbol
    end in
  stored bid st' symbol = latest p_bid bid
  ∧ stored ask st' symbol = latest p_ask ask
  ∧ stored last st' symbol = latest p_last last
  ∧ (deltas_for symbol ops = [] → quotes st' !! symbol = quotes st !! symbol).
Proof.
  intros Hne st' latest. subst st' latest. cbn beta.
  rewrite (touchQuote_interleaved bid p_bid), (touchQuote_interleaved ask p_ask),
    (touchQuote_interleaved last p_last) by done.
  repeat split. apply run_merges_other_record.
Qed.

(** *** Broadcasts *)

Lemma fanout_addressees g line symbol ss :
  w_res <$> fanout g line symbol ss
  = res <$> List.filter (fun sub => negb (skips (filter sub) symbol)) ss.
Proof.
  unfold fanout. induction ss as [|sub ss IH]; [done|]. simpl.
  destruct (skips (filter sub) symbol); simpl; [done|]. by f_equal.
Qed.

(** X6. A broadcast for a stored symbol reads the clock once and
    writes once to each subscriber that does not skip the symbol, in
    the order of the registry, so no subscriber gets the update twice
    when the entries are on distinct responses; a broadcast for a
    symbol without record does nothing, not even read the clock. *)
Theorem pushQuote_once_each symbol st :
  let st' := exec (pushQuote symbol) st in
  (is_Some (quotes st !! symbol) →
     w_res <$> issued st st'
     = res <$> List.filter (fun sub => negb (skips (filter sub) symbol)) (subs st)
     ∧ ticks st' = S (ticks st)
     ∧ (NoDup (res <$> subs st) → NoDup (w_res <$> issued st st')))
  ∧ (quotes st !! symbol = None → st' = st).
Proof.
  intros st'. subst st'. split.
  - intros [q Hq]. rewrite (pushQuote_issued symbol q) by done.
    rewrite fanout_addressees. split; [done|]. split.
    + rewrite pushQuote_exec, Hq. done.
    + generalize (subs st). intros ss Hnd.
      induction ss as [|sub ss IH]; [done|].
      rewrite fmap_cons in Hnd. apply NoDup_cons in Hnd as [Hnotin Hnd]. simpl.
      destruct (negb (skips (filter sub) symbol)); [|by apply IH].
      rewrite fmap_cons. apply NoDup_cons. split; [|by apply IH].
      intros Hin. apply Hnotin.
      apply list_elem_of_fmap in Hin as (s' & -> & Hin).
      apply list_elem_of_In, filter_In in Hin as [Hin _].
      by apply list_elem_of_fmap_2, list_elem_of_In.
  - intros Hnone. by rewrite pushQuote_exec, Hnone.
Qed.

(** X7. Every merge under a non-empty symbol is broadcast: the update
    written carries the record as stored by that merge, whether or not
    the merge changed a price, and the clock reading taken after the
    merge.  A merge under the empty symbol does nothing. *)
Theorem merge_is_broadcast symbol patch st :
  let st' := exec (touchQuote symbol patch) st in
  (symbol ≠ "" →
     ∃ q, quotes st' !! symbol = Some q
       ∧ issued st st'
         = fanout (gone st) (Update (wall (S (ticks st))) symbol q) symbol (subs st)
       ∧ ∀ sub, sub ∈ subs st → accepts (filter sub) symbol →
           ∃ o, mkWrite (res sub) (Update (wall (S (ticks st))) symbol q) o
                ∈ issued st st')
  ∧ (symbol = "" → st' = st).
Proof.
  intros st'. subst st'. split; [|by intros ->].
  intros Hne. exists (merged symbol patch st).
  rewrite touchQuote_quotes, lookup_insert_eq by done. split; [done|].
  assert (Hissued : issued st (exec (touchQuote symbol patch) st)
          = fanout (gone st) (Update (wall (S (ticks st))) symbol (merged symbol patch st))
              symbol (subs st)).
  { rewrite touchQuote_exec, pushQuote_exec by done. simpl.
    rewrite lookup_insert_eq. unfold issued. simpl. by rewrite drop_app_length. }
  split; [done|]. intros sub Hin Hacc. rewrite Hissued.
  eexists. apply elem_of_fanout. eauto.
Qed.

(** *** The token check *)

Lemma checkToken_eval req st : eval (checkToken req) st = authorized req.
Proof. unfold eval. rewrite checkToken_run. by destruct (authorized req) as [[|]|]. Qed.

(** X8. The token check passes every request when [READ_TOKEN] is empty
    and otherwise exactly the requests whose token, read from the
    query and only when that is falsy from the header, equals
    [READ_TOKEN]; a request with neither is refused.  A request that
    passes leaves no trace of the check; a refused request to either
    route gets one 401 answer and changes nothing else: no subscriber,
    no interval, no clock reading.  A request whose token throws when
    it is made a string leaves either route before the relay has
    written or changed anything. *)
Theorem token_gate req st :
  (eval (checkToken req) st = Normal true
   ↔ READ_TOKEN cfg = "" ∨ provided_token req = Normal (READ_TOKEN cfg))
  ∧ (truthy (q_token req) = true → provided_token req = ToString (q_token req))
  ∧ (READ_TOKEN cfg ≠ "" → truthy (q_token req) = false →
     truthy (h_read_token req) = false → eval (checkToken req) st = Normal false)
  ∧ (eval (checkToken req) st = Normal true → exec (checkToken req) st = st)
  ∧ (eval (checkToken req) st = Normal false →
     let refused :=
       set_wire (fun w => w ++ [mkWrite (r_res req) Unauthorized
                                  (outcome_on st (r_res req))]) st in
     exec (get_quotes_stream req) st = refused
     ∧ exec (get_quotes_state req) st = refused)
  ∧ (∀ e, eval (checkToken req) st = Throw e →
       READ_TOKEN cfg ≠ "" ∧ provided_token req = Throw e
       ∧ exec (get_quotes_stream req) st = st
       ∧ exec (get_quotes_state req) st = st).
Proof.
  rewrite checkToken_eval.
  split; [|split; [|split; [|split; [|split]]]].
  - unfold authorized. destruct (String.eqb (READ_TOKEN cfg) "") eqn:Hopen.
    + apply String.eqb_eq in Hopen. split; [by left|done].
    + apply String.eqb_neq in Hopen.
      destruct (provided_token req) as [provided|e]; simpl.
      * split.
        -- intros [= Heq]. apply String.eqb_eq in Heq as ->. by right.
        -- intros [Hno|[= ->]]; [done|]. by rewrite String.eqb_refl.
      * split; [done|]. by intros [Hno|Hno].
  - intros Htok. unfold provided_token, js_or. rewrite Htok. simpl. by rewrite Htok.
  - intros Hset Hq Hh. unfold authorized, provided_token, js_or. rewrite Hq, Hh.
    assert (Hopen : String.eqb (READ_TOKEN cfg) "" = false) by by apply String.eqb_neq.
    rewrite Hopen. cbn [ToString and_then]. f_equal.
    apply String.eqb_neq. intros Heq. by apply Hset.
  - intros Hok. unfold exec. by rewrite checkToken_run, Hok.
  - intros Hno refused. subst refused.
    unfold exec. by rewrite get_quotes_stream_run, get_quotes_state_run, Hno.
  - intros e He. unfold exec. rewrite get_quotes_stream_run, get_quotes_state_run, He.
    unfold authorized in He.
    destruct (String.eqb (READ_TOKEN cfg) "") eqn:Hopen; [done|].
    apply String.eqb_neq in Hopen.
    destruct (provided_token req) as [provided|e']; [done|]. simpl in He.
    by injection He as ->.
Qed.

(** *** Opening a stream *)

(** X9. A request that passes the token check and whose filter is
    parsed gets on its response, in this order, the hello frame and
    one snapshot frame holding the stored quotes its filter lets
    through ([__proto__] left out), and only then enters the registry,
    last, with its filter and a new live interval; nothing else is
    written.  When the parsing of the filter throws, nothing is
    written and nobody enters the registry. *)
Theorem stream_opens_with_snapshot req st :
  authorized req = Normal true →
  let st' := exec (get_quotes_stream req) st in
  let r := r_res req in
  (∀ f, requested_filter req = Normal f →
     (∃ all, issued st st'
             = [mkWrite r (Hello true (TYPE cfg)) (outcome_on st r);
                mkWrite r (SnapshotAll (wall (ticks st)) all) (outcome_on st r)]
        ∧ all !! "__proto__" = None
        ∧ ∀ s, s ≠ "__proto__" →
               all !! s = if decide (accepts f s) then quotes st !! s else None)
     ∧ subs st' = subs st ++ [mkSub r f (next_timer st)]
     ∧ timers st' = {[ next_timer st ]} ∪ timers st
     ∧ next_timer st' = S (next_timer st))
  ∧ (∀ e, requested_filter req = Throw e → st' = st).
Proof.
  intros Hok st' r. subst st' r. split.
  - intros f Hf. rewrite (get_quotes_stream_exec req f) by done.
    cbn zeta. split; [|done].
    exists (collect f (quotes st)). split; [|split].
    + unfold issued. simpl. by rewrite drop_app_length.
    + by rewrite collect_lookup.
    + intros s Hs. rewrite collect_lookup.
      apply String.eqb_neq in Hs. rewrite Hs.
      destruct (decide (accepts f s)) as [Hacc|Hacc].
      * apply skips_accepts in Hacc. by rewrite Hacc.
      * destruct (skips _ s) eqn:Hsk; [done|]. by apply skips_accepts in Hsk.
  - intros e He. unfold exec. by rewrite get_quotes_stream_run, Hok, He.
Qed.

(** *** Who is written to *)

Lemma issued_app st st' ws : wire st' = wire st ++ ws → issued st st' = ws.
Proof. intros Hw. unfold issued. by rewrite Hw, drop_app_length. Qed.

Lemma touchQuote_wire symbol patch st :
  symbol ≠ "" →
  wire (exec (touchQuote symbol patch) st)
  = wire st ++ fanout (gone st) (Update (wall (S (ticks st))) symbol
                                   (merged symbol patch st)) symbol (subs st)
  ∧ quotes (exec (touchQuote symbol patch) st) !! symbol = Some (merged symbol patch st).
Proof.
  intros Hne. rewrite touchQuote_quotes, lookup_insert_eq by done. split; [|done].
  rewrite touchQuote_exec, pushQuote_exec by done. simpl. by rewrite lookup_insert_eq.
Qed.

Lemma route_wire req st :
  (∃ ws, wire (exec (get_quotes_stream req) st) = wire st ++ ws
         ∧ ∀ w, w ∈ ws → w_res w = r_res req ∧ is_update (w_frame w) = false)
  ∧ (∃ ws, wire (exec (get_quotes_state req) st) = wire st ++ ws
           ∧ ∀ w, w ∈ ws → w_res w = r_res req ∧ is_update (w_frame w) = false).
Proof.
  unfold exec. rewrite get_quotes_stream_run, get_quotes_state_run.
  assert (Hnone : ∃ ws : list Write, wire st = wire st ++ ws
            ∧ ∀ w, w ∈ ws → w_res w = r_res req ∧ is_update (w_frame w) = false).
  { exists []. split; [by rewrite app_nil_r|]. intros w Hw. by apply elem_of_nil in Hw. }
  destruct (authorized req) as [[|]|e]; [|split..]; try done.
  - destruct (requested_filter req) as [f|e]; [|done]. split.
    + cbn zeta. eexists. split; [reflexivity|].
      intros w Hw. repeat (apply elem_of_cons in Hw as [->|Hw]; [done|]).
      by apply elem_of_nil in Hw.
    + cbn zeta. eexists. split; [reflexivity|].
      intros w Hw. apply list_elem_of_singleton in Hw as ->. done.
  - eexists. split; [reflexivity|].
    intros w Hw. apply list_elem_of_singleton in Hw as ->. done.
  - eexists. split; [reflexivity|].
    intros w Hw. apply list_elem_of_singleton in Hw as ->. done.
Qed.

(** The writes of one event. *)
Lemma handle_wire e st :
  ∃ ws, wire (exec (handle e) st) = wire st ++ ws ∧
    match e with
    | Stream _ =>
        ws = [] ∨ ∃ t s q, quotes (exec (handle e) st) !! s = Some q
                     ∧ ws = fanout (gone st) (Update t s q) s (subs st)
    | GetQuotesStream req | GetQuotesState req =>
        ∀ w, w ∈ ws → w_res w = r_res req ∧ is_update (w_frame w) = false
    | PingTick sub => ws = [mkWrite (res sub) Ping (outcome_on st (res sub))]
    | WatchdogTick _ | Close _ | Connect | ConnectError _ | Uncaught => ws = []
    end.
Proof.
  destruct e as [m|connected|req|req|sub|sub| |err|].
  - rewrite handle_stream.
    destruct (stream_coerce m) as [[c|]|x] eqn:Hc;
      [|exists []; split; [by rewrite app_nil_r|by left]..].
    apply stream_coerce_some, coerce_symbol in Hc as [_ Hne].
    destruct (merge_coerced_quotes c (stamped st) Hne)
      as (t & st0 & Hq & Hw & Hg & Hs & -> & _).
    destruct (touchQuote_wire (c_symbol c) (delta c t) st0 Hne) as [Hwire Hrec].
    rewrite Hwire, Hw, Hg, Hs. eexists. split; [reflexivity|].
    right. eexists _, _, _. split; [exact Hrec|done].
  - exists []. rewrite app_nil_r. split; [|done].
    by destruct (watchdog_effects connected st) as (_ & _ & _ & _ & _ & Hw & _).
  - simpl handle. rewrite exec_route. by destruct (route_wire req st) as [Hw _].
  - simpl handle. rewrite exec_route. by destruct (route_wire req st) as [_ Hw].
  - eexists. split; [reflexivity|done].
  - exists []. split; [by rewrite app_nil_r|done].
  - exists []. split; [by rewrite app_nil_r|done].
  - exists []. split; [by rewrite app_nil_r|done].
  - exists []. split; [by rewrite app_nil_r|done].
Qed.

Lemma run_wire events st :
  wire (exec (run events) st) = wire st ++ issued st (exec (run events) st).
Proof.
  unfold run. revert st. induction events as [|e events IH]; intros st.
  - simpl. unfold issued. by rewrite drop_all, app_nil_r.
  - simpl for_of. rewrite exec_bind.
    destruct (handle_wire e st) as (ws & Hws & _).
    symmetry. rewrite (issued_app st _ (ws ++ issued (exec (handle e) st)
                                         (exec (for_of events handle) (exec (handle e) st)))).
    + by rewrite IH, Hws, <- app_assoc.
    + by rewrite IH, Hws, <- app_assoc.
Qed.

Lemma run_cons_issued e events st w :
  w ∈ issued st (exec (run (e :: events)) st) →
  w ∈ issued st (exec (handle e) st)
  ∨ w ∈ issued (exec (handle e) st) (exec (run events) (exec (handle e) st)).
Proof.
  intros Hw. apply elem_of_app.
  destruct (handle_wire e st) as (ws & Hws & _).
  rewrite (issued_app _ _ _ Hws).
  assert (Hall : wire (exec (run (e :: events)) st)
                 = wire st ++ ws ++ issued (exec (handle e) st)
                                      (exec (run events) (exec (handle e) st))).
  { unfold run at 1. simpl for_of. rewrite exec_bind. fold (run events).
    by rewrite run_wire, Hws, <- app_assoc. }
  by rewrite (issued_app _ _ _ Hall) in Hw.
Qed.

Lemma handle_keeps_outside r e st :
  not_opening r e → r ∉ res <$> subs st → r ∉ res <$> subs (exec (handle e) st).
Proof.
  intros Hopen Hout. destruct e as [m|connected|req|req|sub|sub| |err|]; try done.
  - by destruct (handle_stream_surroundings m st) as (-> & _).
  - simpl. by rewrite watchdog_subs.
  - simpl handle. rewrite exec_route.
    destruct (get_quotes_stream_subs req st) as [->|(f & h & ->)]; [done|].
    rewrite fmap_app. intros [Hin|Hin]%elem_of_app; [done|].
    apply list_elem_of_singleton in Hin. simpl in Hin. by apply (Hopen req).
  - simpl. by rewrite exec_route, get_quotes_state_subs.
  - intros Hin. apply Hout.
    apply list_elem_of_fmap in Hin as (s & -> & Hin).
    apply on_close_subs in Hin as [Hin _]. by apply list_elem_of_fmap_2.
Qed.

(** X10. An update frame is only ever written by the stream listener,
    to a subscriber that is in the registry and whose filter lets the
    symbol through, and it carries the record just stored.  So a
    response that is not in the registry, because no stream was opened
    on it yet or because its close listener has run, gets no update
    frame, whatever events run, until a stream is opened on it. *)
Theorem updates_only_to_subscribers :
  (∀ e st w, w ∈ issued st (exec (handle e) st) → is_update (w_frame w) = true →
     is_stream e = true
     ∧ ∃ sub t s q, sub ∈ subs st ∧ accepts (filter sub) s
         ∧ quotes (exec (handle e) st) !! s = Some q
         ∧ w = mkWrite (res sub) (Update t s q) (outcome_on st (res sub)))
  ∧ (∀ r events st, r ∉ res <$> subs st → Forall (not_opening r) events →
       ∀ w, w ∈ issued st (exec (run events) st) → w_res w = r →
            is_update (w_frame w) = false)
  ∧ (∀ sub st, res sub ∉ res <$> subs (exec (on_close sub) st)).
Proof.
  assert (Hone : ∀ e st w, w ∈ issued st (exec (handle e) st) →
            is_update (w_frame w) = true →
            is_stream e = true
            ∧ ∃ sub t s q, sub ∈ subs st ∧ accepts (filter sub) s
                ∧ quotes (exec (handle e) st) !! s = Some q
                ∧ w = mkWrite (res sub) (Update t s q) (outcome_on st (res sub))).
  { intros e st w Hw Hup. destruct (handle_wire e st) as (ws & Hws & Hcases).
    rewrite (issued_app _ _ _ Hws) in Hw.
    destruct e as [m|connected|req|req|sub|sub| |err|].
    - split; [done|]. destruct Hcases as [->|(t & s & q & Hq & ->)].
      + by apply elem_of_nil in Hw.
      + apply elem_of_fanout in Hw as (sub & Hin & Hacc & ->). by exists sub, t, s, q.
    - subst ws. by apply elem_of_nil in Hw.
    - destruct (Hcases w Hw) as [_ Hno]. congruence.
    - destruct (Hcases w Hw) as [_ Hno]. congruence.
    - subst ws. apply list_elem_of_singleton in Hw as ->. done.
    - subst ws. by apply elem_of_nil in Hw.
    - subst ws. by apply elem_of_nil in Hw.
    - subst ws. by apply elem_of_nil in Hw.
    - subst ws. by apply elem_of_nil in Hw. }
  split; [exact Hone|]. split.
  - intros r events st Hout Hopen. revert st Hout.
    induction Hopen as [|e events He _ IH]; intros st Hout w Hw Hr.
    + unfold run, issued in Hw. simpl in Hw. rewrite drop_all in Hw.
      by apply elem_of_nil in Hw.
    + apply run_cons_issued in Hw as [Hw|Hw].
      * destruct (is_update (w_frame w)) eqn:Hup; [|done].
        destruct (Hone e st w Hw Hup) as (_ & sub & t & s & q & Hin & _ & _ & ->).
        exfalso. apply Hout. simpl in Hr. subst r. by apply list_elem_of_fmap_2.
      * apply (IH (exec (handle e) st)); [by apply handle_keeps_outside|done|done].
  - intros sub st Hin. apply list_elem_of_fmap in Hin as (s & Hres & Hin).
    apply on_close_subs in Hin as [_ Hne]. by apply Hne.
Qed.

(** *** Closing *)

Lemma filter_all {A} (P : A → bool) (l : list A) :
  (∀ x, x ∈ l → P x = true) → List.filter P l = l.
Proof.
  induction l as [|x l IH]; intros Hall; [done|]. simpl.
  rewrite (Hall x) by apply list_elem_of_here. f_equal. apply IH.
  intros y Hy. apply Hall. by apply list_elem_of_further.
Qed.

Lemma filter_twice {A} (P : A → bool) (l : list A) :
  List.filter P (List.filter P l) = List.filter P l.
Proof.
  apply filter_all. intros x Hx. by apply list_elem_of_In, filter_In in Hx as [_ ?].
Qed.

Lemma fanout_filter g line symbol (P : Sub → bool) (Q : Write → bool) ss :
  (∀ sub o, Q (mkWrite (res sub) line o) = P sub) →
  fanout g line symbol (List.filter P ss) = List.filter Q (fanout g line symbol ss).
Proof.
  intros HPQ. unfold fanout. induction ss as [|sub ss IH]; [done|]. simpl.
  destruct (P sub) eqn:HP; simpl;
    destruct (skips (filter sub) symbol); simpl; rewrite ?HPQ, ?HP; try done.
  by f_equal.
Qed.

(** X11. The close listener writes nothing and reads no clock; run
    again it changes nothing, as it does when neither the entry nor its
    interval is there; and broadcasts after it write to the remaining
    subscribers exactly what they would have written without it. *)
Theorem close_is_clean sub st :
  let st1 := exec (on_close sub) st in
  exec (on_close sub) st1 = st1
  ∧ (res sub ∉ res <$> subs st → ping sub ∉ timers st → st1 = st)
  ∧ wire st1 = wire st ∧ ticks st1 = ticks st ∧ quotes st1 = quotes st
  ∧ (∀ symbol,
       issued st1 (exec (pushQuote symbol) st1)
       = List.filter (fun w => negb (Nat.eqb (w_res w) (res sub)))
           (issued st (exec (pushQuote symbol) st))).
Proof.
  intros st1. subst st1. rewrite !on_close_exec.
  split; [|split; [|split; [done|split; [done|split; [done|]]]]].
  - destruct st. unfold set_subs, set_timers. simpl. f_equal.
    + apply filter_twice.
    + set_solver.
  - intros Hres Hping. destruct st. unfold set_subs, set_timers. simpl in *. f_equal.
    + apply filter_all. intros s Hs. apply negb_true_iff, Nat.eqb_neq.
      intros Heq. apply Hres. rewrite <- Heq. by apply list_elem_of_fmap_2.
    + set_solver.
  - intros symbol. rewrite !pushQuote_exec. simpl.
    destruct (quotes st !! symbol) as [q|]; unfold issued; simpl.
    + rewrite !drop_app_length. by apply fanout_filter.
    + by rewrite drop_all.
Qed.

(** *** Intervals and entries *)

Lemma NoDup_fmap_filter {A B} (f : A → B) (P : A → bool) (l : list A) :
  NoDup (f <$> l) → NoDup (f <$> List.filter P l).
Proof.
  induction l as [|x l IH]; [done|].
  rewrite fmap_cons. intros [Hnotin Hnd]%NoDup_cons. simpl.
  destruct (P x); [|by apply IH].
  rewrite fmap_cons. apply NoDup_cons. split; [|by apply IH].
  intros Hin. apply Hnotin.
  apply list_elem_of_fmap in Hin as (y & -> & Hin).
  apply list_elem_of_In, filter_In in Hin as [Hin _].
  by apply list_elem_of_fmap_2, list_elem_of_In.
Qed.

Lemma NoDup_fmap_eq {A B} (f : A → B) (l : list A) a b :
  NoDup (f <$> l) → a ∈ l → b ∈ l → f a = f b → a = b.
Proof.
  induction l as [|x l IH]; intros Hnd Ha Hb Heq; [by apply elem_of_nil in Ha|].
  rewrite fmap_cons in Hnd. apply NoDup_cons in Hnd as [Hnotin Hnd].
  apply elem_of_cons in Ha as [->|Ha]; apply elem_of_cons in Hb as [->|Hb]; auto.
  - exfalso. apply Hnotin. rewrite Heq. by apply list_elem_of_fmap_2.
  - exfalso. apply Hnotin. rewrite <- Heq. by apply list_elem_of_fmap_2.
Qed.

Lemma registry_ok_same st st' :
  subs st' = subs st → timers st' = timers st → next_timer st' = next_timer st →
  registry_ok st → registry_ok st'.
Proof. unfold registry_ok. by intros -> -> ->. Qed.

Lemma open_registry_ok req f st :
  authorized req = Normal true → requested_filter req = Normal f →
  r_res req ∉ res <$> subs st →
  registry_ok st → registry_ok (exec (get_quotes_stream req) st).
Proof.
  intros Hok Hf Hfresh (Hres & Hping & Htimers & Hbound).
  rewrite (get_quotes_stream_exec req f) by done. unfold registry_ok. simpl.
  rewrite !fmap_app. simpl.
  assert (Hnew : next_timer st ∉ ping <$> subs st).
  { intros Hin. assert (Hlt : (next_timer st < next_timer st)%nat); [|lia].
    apply Hbound. rewrite Htimers. by apply elem_of_list_to_set. }
  split; [|split; [|split]].
  - apply NoDup_app. split; [done|]. split; [|apply NoDup_singleton].
    intros r Hr Hin. apply list_elem_of_singleton in Hin. by subst r.
  - apply NoDup_app. split; [done|]. split; [|apply NoDup_singleton].
    intros t Ht Hin. apply list_elem_of_singleton in Hin. by subst t.
  - rewrite Htimers, list_to_set_app_L. simpl. set_solver.
  - intros t [Ht|Ht]%elem_of_union.
    + apply elem_of_singleton in Ht. lia.
    + apply Hbound in Ht. lia.
Qed.

Lemma close_registry_ok sub st :
  sub ∈ subs st → registry_ok st → registry_ok (exec (on_close sub) st).
Proof.
  intros Hin (Hres & Hping & Htimers & Hbound).
  rewrite on_close_exec. unfold registry_ok. simpl.
  split; [|split; [|split]].
  - by apply NoDup_fmap_filter.
  - by apply NoDup_fmap_filter.
  - rewrite Htimers. apply set_eq. intros t.
    rewrite elem_of_difference, !elem_of_list_to_set, elem_of_singleton.
    rewrite !list_elem_of_fmap. split.
    + intros [(s & -> & Hs) Hne]. exists s. split; [done|].
      apply list_elem_of_In, filter_In. split; [by apply list_elem_of_In|].
      apply negb_true_iff, Nat.eqb_neq. intros Heq. apply Hne.
      by rewrite (NoDup_fmap_eq res (subs st) s sub).
    + intros (s & -> & Hs). apply list_elem_of_In, filter_In in Hs as [Hs Hne].
      apply list_elem_of_In in Hs. apply negb_true_iff, Nat.eqb_neq in Hne.
      split; [by exists s|]. intros Heq. apply Hne.
      by rewrite (NoDup_fmap_eq ping (subs st) s sub).
  - intros t [Ht _]%elem_of_difference. by apply Hbound.
Qed.

Lemma close_is_absent sub st :
  res sub ∉ res <$> subs st → ping sub ∉ timers st → exec (on_close sub) st = st.
Proof.
  intros Hres Hping. rewrite on_close_exec.
  destruct st. unfold set_subs, set_timers. simpl in *. f_equal.
  - apply filter_all. intros s Hs. apply negb_true_iff, Nat.eqb_neq.
    intros Heq. apply Hres. rewrite <- Heq. by apply list_elem_of_fmap_2.
  - set_solver.
Qed.

Lemma handle_registry_ok e st :
  event_ok st e → registry_ok st → registry_ok (exec (handle e) st).
Proof.
  intros He Hok. destruct e as [m|connected|req|req|sub|sub| |err|]; try done.
  - destruct (handle_stream_surroundings m st) as (Hs & Ht & Hn & _).
    by apply (registry_ok_same st).
  - destruct (watchdog_effects connected st) as (_ & _ & Hs & Ht & Hn & _).
    by apply (registry_ok_same st).
  - simpl handle. rewrite exec_route.
    destruct (authorized req) as [[|]|x] eqn:Hauth;
      [destruct (requested_filter req) as [f|x] eqn:Hf;
         [by apply (open_registry_ok req f)|]|..];
      apply (registry_ok_same st); try done;
      unfold exec; rewrite get_quotes_stream_run, Hauth, ?Hf; done.
  - simpl handle. rewrite exec_route.
    destruct (route_effects req st) as [_ (_ & _ & _ & Hs & Ht & Hn & _)].
    by apply (registry_ok_same st).
  - destruct He as [Hin|[Hres Hping]]; [by apply close_registry_ok|].
    simpl handle. by rewrite close_is_absent.
Qed.

(** X12. No interval leaks.  Along any run in which streams are opened
    on new responses and closes are those of registered entries (or
    repeated closes), the entries of the registry stay on distinct
    responses, each holds an interval of its own, and the live
    intervals are exactly those of the entries: a close clears the
    interval of its entry and no other. *)
Theorem registry_stays_ok events st :
  registry_ok st → run_ok st events → registry_ok (exec (run events) st).
Proof.
  unfold run. revert st. induction events as [|e events IH]; intros st Hok Hrun; [done|].
  destruct Hrun as [He Hrun]. simpl for_of. rewrite exec_bind.
  by apply IH; [apply handle_registry_ok|].
Qed.

(** *** Liveness *)

Lemma stamped_after_stream m st :
  lastBrandEventAt (exec (handle (Stream m)) st) = wall (ticks st).
Proof.
  simpl handle. rewrite exec_listener.
  pose proof (on_stream_stamps m st) as Hstamp.
  by destruct (eval (on_stream m) st).
Qed.

(** X13. Every upstream event, quote-like or not, stamps
    [lastBrandEventAt] with the clock reading taken on its arrival, so
    the age the watchdog computes afterwards runs from that reading
    (when it is truthy).  An event that is not quote-like, or resolves
    no symbol, changes nothing else but the clock.  Neither does an
    event on which a coercion of the listener throws, its type tag
    first: it stores and writes nothing, and ends the process. *)
Theorem every_event_feeds_watchdog m st :
  let st' := exec (handle (Stream m)) st in
  lastBrandEventAt st' = wall (ticks st)
  ∧ (Num.truthy (wall (ticks st)) = true →
     elapsed st' = Num.sub (wall (ticks st')) (wall (ticks st)))
  ∧ (quote_like m = Normal false → st' = stamped st)
  ∧ (quote_like m = Normal true → resolved_symbol m = Normal "" → st' = stamped st)
  ∧ (∀ e, quote_like m = Throw e → st' = set_exited 1 (stamped st))
  ∧ (∀ e, stream_coerce m = Throw e → st' = set_exited 1 (stamped st)).
Proof.
  intros st'. subst st'.
  assert (Hstamp : lastBrandEventAt (exec (handle (Stream m)) st) = wall (ticks st))
    by apply stamped_after_stream.
  split; [done|]. split; [|split; [|split; [|split]]].
  - intros Hnow. unfold elapsed, or_else. by rewrite Hstamp, Hnow.
  - intros Hno. rewrite handle_stream. unfold stream_coerce. by rewrite Hno.
  - intros Hlike Hnone. rewrite handle_stream. unfold stream_coerce, coerce.
    by rewrite Hlike, Hnone.
  - intros e He. rewrite handle_stream. unfold stream_coerce. by rewrite He.
  - intros e He. by rewrite handle_stream, He.
Qed.

(** *** Where the quote body is looked for *)



(** *** Snapshots and health *)

Lemma collect_subseteq f qs : collect f qs ⊆ qs.
Proof.
  apply map_subseteq_spec. intros s q. rewrite collect_lookup.
  destruct (String.eqb s "__proto__"); [done|]. by destruct (skips f s).
Qed.

(** X15. A snapshot never holds a symbol that is not stored, nor a
    quote other than the stored one, so the count of the state route
    never exceeds the number [/health] reports; asked without filter
    the state route answers with the whole store less [__proto__]. *)
Theorem snapshot_within_store req f st :
  authorized req = Normal true →
  requested_filter req = Normal f →
  let st' := exec (get_quotes_state req) st in
  ∃ out, issued st st'
         = [mkWrite (r_res req) (StateJson (wall (ticks st)) (size out) out)
              (outcome_on st (r_res req))]
    ∧ out ⊆ quotes st
    ∧ (size out ≤ h_symbols (eval get_health st))%nat
    ∧ (f = ∅ → out = delete "__proto__" (quotes st)).
Proof.
  intros Hok Hf st'. subst st'. rewrite (get_quotes_state_exec req f) by done. cbn zeta.
  exists (collect f (quotes st)). split; [|split; [|split]].
  - unfold issued. simpl. by rewrite drop_app_length.
  - apply collect_subseteq.
  - simpl. apply map_subseteq_size, collect_subseteq.
  - intros ->. apply map_eq. intros s. rewrite collect_lookup.
    destruct (String.eqb s "__proto__") eqn:Hs.
    + apply String.eqb_eq in Hs as ->. by rewrite lookup_delete_eq.
    + apply String.eqb_neq in Hs. rewrite lookup_delete_ne by done.
      assert (Hsk : skips ∅ s = false) by (apply skips_accepts; by left).
      by rewrite Hsk.
Qed.


(** *** Which events are quote-like *)

Lemma startsWith_spec w s :
  JsString.startsWith w s = true ↔ ∃ post, s = w +:+ post.
Proof.
  revert s. induction w as [|a w IH]; intros s.
  - simpl. split; [by exists s|done].
  - destruct s as [|b s]; simpl.
    + split; [done|]. intros (post & Heq). rewrite append_cons in Heq. done.
    + rewrite andb_true_iff, Ascii.eqb_eq, IH. split.
      * intros (-> & post & ->). exists post. by rewrite append_cons.
      * intros (post & Heq). rewrite append_cons in Heq.
        injection Heq as -> ->. eauto.
Qed.

Lemma includes_spec w s :
  JsString.includes w s = true ↔ ∃ pre post, s = pre +:+ w +:+ post.
Proof.
  induction s as [|c s IH].
  - simpl. rewrite orb_false_r, startsWith_spec. split.
    + intros (post & Heq). by exists "", post.
    + intros (pre & post & Heq). destruct pre as [|c pre].
      * by exists post.
      * rewrite append_cons in Heq. done.
  - simpl. rewrite orb_true_iff, startsWith_spec, IH. split.
    + intros [(post & Heq)|(pre & post & ->)].
      * by exists "", post.
      * exists (String c pre), post. by rewrite append_cons.
    + intros (pre & post & Heq). destruct pre as [|c' pre].
      * left. by exists post.
      * right. rewrite append_cons in Heq. injection Heq as -> ->. eauto.
Qed.

Lemma toUpperCase_app a b :
  JsString.toUpperCase (a +:+ b) = JsString.toUpperCase a +:+ JsString.toUpperCase b.
Proof.
  induction a as [|c a IH]; [done|].
  rewrite append_cons. simpl. by rewrite IH, append_cons.
Qed.

Lemma toUpperCase_split t a b :
  JsString.toUpperCase t = a +:+ b →
  ∃ t1 t2, t = t1 +:+ t2 ∧ JsString.toUpperCase t1 = a ∧ JsString.toUpperCase t2 = b.
Proof.
  revert t. induction a as [|c a IH]; intros t Heq.
  - by exists "", t.
  - rewrite append_cons in Heq. destruct t as [|d t]; [done|].
    simpl in Heq. injection Heq as Hc Heq.
    destruct (IH t Heq) as (t1 & t2 & -> & Ha & Hb).
    exists (String d t1), t2. rewrite append_cons. simpl. by rewrite Hc, Ha.
Qed.

Lemma includes_upper w t :
  JsString.includes w (JsString.toUpperCase t) = true ↔ contains_ci w t.
Proof.
  rewrite includes_spec. unfold contains_ci. split.
  - intros (pre' & post' & Heq).
    apply toUpperCase_split in Heq as (pre & rest & -> & _ & Hrest).
    apply toUpperCase_split in Hrest as (mid & post & -> & Hmid & _).
    by exists pre, mid, post.
  - intros (pre & mid & post & -> & <-).
    exists (JsString.toUpperCase pre), (JsString.toUpperCase post).
    by rewrite !toUpperCase_app.
Qed.

(** [ToString] throws exactly on the values that have no string. *)
Lemma ToString_has_string v :
  match ToString v with
  | Normal _ => has_string v = true
  | Throw _ => has_string v = false
  end.
Proof.
  revert v. fix IH 1. intros [| |b|x|s|xs|fs]; try done.
  - rewrite ToString_array. simpl has_string.
    induction xs as [|e xs IHxs]; [done|].
    simpl element_texts. simpl forallb. specialize (IH e).
    assert (He : match element_text e with
                 | Normal _ => has_string e = true
                 | Throw _ => has_string e = false
                 end) by by destruct e.
    destruct (element_text e) as [t|x]; rewrite He; simpl; [|done].
    by destruct (element_texts xs).
  - simpl. by destruct (assoc "toString" fs).
Qed.

Lemma ToString_throws v : (∃ e, ToString v = Throw e) ↔ has_string v = false.
Proof.
  pose proof (ToString_has_string v) as Hv. split.
  - intros [e He]. by rewrite He in Hv.
  - intros Hno. destruct (ToString v) as [s|e]; [congruence|eauto].
Qed.

(** X17. The stream listener first makes a string of the type tag of
    the event, and is left by the exception when that throws, which it
    does exactly for a tag that has no string.  Otherwise it hands the
    event to the normaliser exactly when the tag holds QUOTE, TICK,
    PRIC or MARKET in any letter case, or the event has a truthy
    [quote], [data.quote] or [payload.quote]. *)
Theorem quote_like_events m :
  (∀ tag, type_tag m = Normal tag →
     ∃ like, quote_like m = Normal like
       ∧ (like = true ↔
          contains_ci "QUOTE" tag ∨ contains_ci "TICK" tag
          ∨ contains_ci "PRIC" tag ∨ contains_ci "MARKET" tag
          ∨ truthy (opt_member m "quote") = true
          ∨ truthy (opt_member (opt_member m "data") "quote") = true
          ∨ truthy (opt_member (opt_member m "payload") "quote") = true))
  ∧ (∀ e, type_tag m = Throw e ↔ quote_like m = Throw e)
  ∧ ((∃ e, quote_like m = Throw e)
     ↔ has_string (js_or (opt_member m "type") (JStr "")) = false)
  ∧ (∀ st, quote_like m = Normal true →
       on_stream m st = processQuoteLikeEvent m (stamped st))
  ∧ (∀ st, quote_like m = Normal false → on_stream m st = (Normal tt, stamped st))
  ∧ (∀ st e, quote_like m = Throw e → on_stream m st = (Throw e, stamped st)).
Proof.
  assert (Hthrow : ∀ e, type_tag m = Throw e ↔ quote_like m = Throw e).
  { intros e. unfold quote_like. fold (type_tag m).
    destruct (type_tag m) as [tag|x]; simpl; split; intros [=]; by subst. }
  split; [|split; [done|split; [|split; [|split]]]].
  - intros tag Htag. unfold quote_like. fold (type_tag m). rewrite Htag.
    eexists. split; [reflexivity|].
    rewrite !orb_true_iff, !includes_upper. tauto.
  - rewrite <- ToString_throws. fold (type_tag m).
    split; intros [e He]; exists e; by apply Hthrow.
  - intros st Hlike. unfold on_stream, stamped, Date_now, modify, bind.
    by rewrite try_bind_ret, Hlike.
  - intros st Hlike. unfold on_stream, stamped, Date_now, modify, bind.
    by rewrite try_bind_ret, Hlike.
  - intros st e Hlike. unfold on_stream, stamped, Date_now, modify, bind.
    by rewrite try_bind_ret, Hlike.
Qed.

(** *** The parsed filter *)

Lemma parseSymbolsParam_text q :
  parseSymbolsParam q
  = let? text := param_text q in
    Normal (list_to_set (List.filter (fun x => negb (String.eqb x ""))
                           (List.map JsString.trim (JsString.split "," text)))).
Proof.
  unfold parseSymbolsParam, param_text.
  by destruct (if isArray q then _ else _).
Qed.

Lemma elem_of_parsed q f x :
  parseSymbolsParam q = Normal f →
  x ∈ f ↔
  x ≠ "" ∧ ∃ text t, param_text q = Normal text
                     ∧ t ∈ JsString.split "," text ∧ x = JsString.trim t.
Proof.
  rewrite parseSymbolsParam_text. destruct (param_text q) as [text|e]; [|done].
  simpl. intros [= <-].
  rewrite elem_of_list_to_set, list_elem_of_In, filter_In.
  rewrite in_map_iff, negb_true_iff, String.eqb_neq. split.
  - intros [(t & <- & Hin) Hne]. split; [done|]. exists text, t.
    by rewrite list_elem_of_In.
  - intros [Hne (text' & t & [= <-] & Hin & ->)]. split; [|done]. exists t.
    by rewrite <- list_elem_of_In.
Qed.

Lemma trimStart_no_comma t : no_comma t = true → no_comma (JsString.trimStart t) = true.
Proof.
  induction t as [|c t IH]; [done|]. simpl.
  intros [Hc Ht]%andb_true_iff. destruct (JsString.is_ws c); [by apply IH|].
  simpl. by rewrite Hc, Ht.
Qed.

Lemma trimEnd_no_comma t : no_comma t = true → no_comma (JsString.trimEnd t) = true.
Proof.
  induction t as [|c t IH]; [done|]. simpl.
  intros [Hc Ht]%andb_true_iff. specialize (IH Ht).
  destruct (JsString.trimEnd t) as [|b u].
  - destruct (JsString.is_ws c); [done|]. simpl. by rewrite Hc.
  - simpl in *. by rewrite Hc, IH.
Qed.

Lemma trim_clean t : JsString.trim t ≠ "" → no_comma t = true → clean_token (JsString.trim t).
Proof.
  intros Hne Hno. split; [done|]. split; [|split].
  - by apply trimEnd_no_comma, trimStart_no_comma.
  - intros c. apply trimEnd_first. intros a. apply trimStart_first.
  - intros c. apply trimEnd_last.
Qed.

Lemma append_empty_r (a : string) : a +:+ "" = a.
Proof. induction a as [|c a IH]; [done|]. by rewrite append_cons, IH. Qed.

Lemma clean_trim x : clean_token x → JsString.trim x = x.
Proof.
  intros (_ & _ & Hfirst & Hlast). symmetry. apply trimmed_of_trim.
  exists "", "". rewrite append_empty, append_empty_r. by repeat split.
Qed.

Lemma parsed_tokens_clean q f x : parseSymbolsParam q = Normal f → x ∈ f → clean_token x.
Proof.
  intros Hf [Hne (text & t & Htext & Hin & ->)]%(elem_of_parsed q f x Hf).
  apply trim_clean; [done|].
  pose proof (split_no_comma text) as Hall.
  rewrite Forall_forall in Hall. by apply Hall.
Qed.

Lemma parse_clean_list l :
  Forall clean_token l →
  parseSymbolsParam (JStr (JsString.join "," l)) = Normal (list_to_set l).
Proof.
  intros Hl. rewrite parseSymbolsParam_string. f_equal.
  destruct l as [|x0 l0] eqn:Hshape; [done|].
  rewrite <- Hshape in *. assert (Hnil : l ≠ []) by by subst l.
  clear Hshape x0 l0.
  assert (Hsplit : JsString.split "," (JsString.join "," l) = l).
  { apply comma_tokens_split. split; [done|]. split; [|done].
    eapply Forall_impl; [exact Hl|]. by intros x (_ & Hno & _). }
  rewrite Hsplit. apply set_eq. intros x.
  rewrite !elem_of_list_to_set, list_elem_of_In, filter_In.
  rewrite in_map_iff, negb_true_iff, String.eqb_neq.
  rewrite Forall_forall in Hl. split.
  - intros [(t & <- & Hin) Hne]. apply list_elem_of_In in Hin.
    by rewrite clean_trim by by apply Hl.
  - intros Hin. destruct (Hl x Hin) as (Hne & _). split; [|done].
    exists x. split; [by apply clean_trim, Hl|by apply list_elem_of_In].
Qed.

(** X18. Whatever the parameter is, every symbol of the parsed filter
    is non-empty, holds no comma and has no white space at either end.
    Parsing is a normal form: a list of such symbols, joined with
    commas or sent as an array, parses to the set of its members, and
    so does the filter of any parameter when it is sent again. *)
Theorem parsed_filter_is_normal :
  (∀ q f x, parseSymbolsParam q = Normal f → x ∈ f → clean_token x)
  ∧ (∀ l, Forall clean_token l →
       parseSymbolsParam (JStr (JsString.join "," l)) = Normal (list_to_set l)
       ∧ parseSymbolsParam (JArr (JStr <$> l)) = Normal (list_to_set l))
  ∧ (∀ q f, parseSymbolsParam q = Normal f →
       parseSymbolsParam (JStr (JsString.join "," (elements f))) = Normal f).
Proof.
  split; [exact parsed_tokens_clean|]. split.
  - intros l Hl. split; [by apply parse_clean_list|].
    by rewrite parseSymbolsParam_array, element_texts_strings, <- parse_clean_list.
  - intros q f Hf. rewrite parse_clean_list.
    + f_equal. apply list_to_set_elements_L.
    + apply Forall_forall. intros x Hx. apply (parsed_tokens_clean q f); [done|].
      by apply elem_of_elements.
Qed.

(** X19. Symbols are stored as the upstream sends them, while filters
    are parsed to trimmed comma-free tokens: a symbol that starts or
    ends with white space or holds a comma is skipped by every
    subscriber that asked for a filter, whatever it asked for, and
    reaches only the subscribers without filter. *)
Theorem unclean_symbol_needs_no_filter symbol q f :
  ¬ clean_token symbol →
  parseSymbolsParam q = Normal f →
  skips f symbol = negb (bool_decide (f = ∅)).
Proof.
  intros Hunclean Hf.
  destruct (bool_decide (f = ∅)) eqn:Hempty; simpl.
  - apply bool_decide_eq_true in Hempty. apply skips_accepts. by left.
  - apply bool_decide_eq_false in Hempty.
    destruct (skips f symbol) eqn:Hsk; [done|].
    apply skips_accepts in Hsk as [Hnone|Hin]; [done|].
    exfalso. by apply Hunclean, (parsed_tokens_clean q f).
Qed.

(** *** Prices stay *)




(** *** Configuration *)

(** X21. A threshold or token that is not set, or set to the empty
    string, takes its default: 120000 and no token check.  A
    [STALE_MS] whose string coerces to [NaN] or zero switches the
    watchdog off: it never ends the process, connected or not.  A
    missing brand key ends the process with code 1. *)
Theorem configuration_defaults env :
  cfg = load_config env →
  (env "STALE_MS" = None ∨ env "STALE_MS" = Some "" → STALE_MS cfg = of_Z 120000)
  ∧ (∀ s, env "STALE_MS" = Some s → s ≠ "" →
       Num.truthy (StringToNumber s) = false →
       ∀ connected st, exec (watchdog connected) st = st)
  ∧ (env "READ_TOKEN" = None ∨ env "READ_TOKEN" = Some "" →
     ∀ req st, checkToken req st = (Normal true, st))
  ∧ (env "TL_BRAND_KEY" = None ∨ env "TL_BRAND_KEY" = Some "" →
     ∀ st, exited (exec (check_key env) st) = Some 1%Z).
Proof.
  intros Hcfg. split; [|split; [|split]].
  - intros Hunset. rewrite Hcfg. unfold load_config, env_number. simpl.
    by destruct Hunset as [-> | ->].
  - intros s Hs Hne Hoff connected st. apply watchdog_disabled.
    rewrite Hcfg. unfold load_config, env_number. simpl. rewrite Hs.
    apply String.eqb_neq in Hne. by rewrite Hne.
  - intros Hunset req st. unfold checkToken. rewrite Hcfg.
    unfold load_config, env_or. simpl.
    by destruct Hunset as [-> | ->].
  - intros Hunset st. unfold check_key. by destruct Hunset as [-> | ->].
Qed.

End Properties.

(** ** The properties on sample data *)

#[local] Existing Instance sample_runtime.

Lemma touchQuote_latest_finite_sample :
  "GBPUSD" ≠ "" ∧ quotes initial !! "GBPUSD" = None
  ∧ let st' := exec (for_of sample_deltas (touchQuote "GBPUSD")) initial in
    stored bid st' "GBPUSD" = Some (of_Z 1)
    ∧ stored ask st' "GBPUSD" = Some (of_Z 2)
    ∧ stored last st' "GBPUSD" = None.
Proof.
  assert (Hne : "GBPUSD" ≠ "") by discriminate.
  assert (Hfresh : quotes initial !! "GBPUSD" = None) by reflexivity.
  split; [exact Hne|]. split; [exact Hfresh|].
  destruct (touchQuote_latest_finite "GBPUSD" sample_deltas initial Hne Hfresh)
    as (Hbid & Hask & Hlast & _).
  split; [exact Hbid|]. split; [exact Hask|exact Hlast].
Defined.

Lemma touchQuote_idempotent_sample :
  let d := mkPatch (Some (of_Z 1)) None None None in
  let st1 := exec (touchQuote "EURUSD" d) initial in
  let st2 := exec (touchQuote "EURUSD" d) st1 in
  prices <$> quotes st2 !! "EURUSD" = prices <$> quotes st1 !! "EURUSD"
  ∧ time <$> quotes st2 !! "EURUSD" = Some (wall 2).
Proof.
  intros d st1 st2.
  destruct (touchQuote_idempotent "EURUSD" d initial) as (Hprices & _ & Htime).
  split; [apply Hprices|]. apply Htime. discriminate.
Defined.

Lemma pushQuote_delivery_sample :
  let q := mkQuote None (Some (of_Z 2)) None (of_Z 5) in
  let st' := exec (pushQuote "GBPUSD") filtered_pair in
  (quotes filtered_pair !! "GBPUSD" = Some q
   ∧ NoDup (res <$> subs filtered_pair)
   ∧ eurusd_only ∈ subs filtered_pair ∧ unfiltered ∈ subs filtered_pair)
  ∧ (∀ w, w ∈ issued filtered_pair st' → w_res w ≠ res eurusd_only)
  ∧ mkWrite 2 (Update (wall 0) "GBPUSD" q) Sent ∈ issued filtered_pair st'.
Proof.
  intros q st'.
  assert (Hq : quotes filtered_pair !! "GBPUSD" = Some q) by reflexivity.
  assert (Hnd : NoDup (res <$> subs filtered_pair)).
  { apply NoDup_cons. split; [|apply NoDup_singleton].
    intros Hin. apply list_elem_of_singleton in Hin. discriminate. }
  assert (Ha : eurusd_only ∈ subs filtered_pair) by apply list_elem_of_here.
  assert (Hb : unfiltered ∈ subs filtered_pair)
    by apply list_elem_of_further, list_elem_of_here.
  split; [done|]. split.
  - destruct (pushQuote_delivery "GBPUSD" q filtered_pair eurusd_only Hq Hnd Ha)
      as (_ & _ & _ & Hnone & _).
    apply Hnone; [reflexivity|discriminate].
  - destruct (pushQuote_delivery "GBPUSD" q filtered_pair unfiltered Hq Hnd Hb)
      as (_ & _ & Hsent & _).
    apply Hsent; [by left|]. apply not_elem_of_empty.
Defined.

(** The event [partial_event] on a store that holds a bid for its
    symbol: the bid of the event does not coerce to a number and the
    stored bid stays, its ask of zero is stored, and the last, which
    never was set, stays absent. *)
Lemma coerced_fields_stored_sample :
  let st' := exec (processQuoteLikeEvent partial_event) one_gone in
  coerce partial_event = Normal (Some (mkCoerced "EURUSD" NaN zero NaN NaN))
  ∧ stored bid st' "EURUSD" = Some (of_Z 1)
  ∧ stored ask st' "EURUSD" = Some zero
  ∧ stored last st' "EURUSD" = None.
Proof.
  intros st'.
  assert (Hc : coerce partial_event = Normal (Some (mkCoerced "EURUSD" NaN zero NaN NaN)))
    by reflexivity.
  split; [exact Hc|].
  destruct (coerced_fields_stored partial_event _ one_gone Hc)
    as (xb & xa & xl & Hxb & Hxa & Hxl & Hbid & Hask & Hlast & _).
  vm_compute in Hxb, Hxa, Hxl. injection Hxb as <-. injection Hxa as <-.
  injection Hxl as <-.
  split; [exact Hbid|]. split; [exact Hask|exact Hlast].
Qed.

Lemma write_failure_isolated_sample :
  let q := mkQuote (Some (of_Z 1)) None None (of_Z 5) in
  let st' := exec (pushQuote "EURUSD") one_gone in
  quotes one_gone !! "EURUSD" = Some q
  ∧ mkWrite 2 (Update (wall 0) "EURUSD" q) Sent ∈ issued one_gone st'
  ∧ subs st' = subs one_gone
  ∧ mkSub 1 ∅ 0 ∈ subs (exec (run [Stream epoch_event; PingTick (mkSub 1 ∅ 0);
                                   Close (mkSub 2 ∅ 1); WatchdogTick true]) st')
  ∧ mkSub 1 ∅ 0 ∉ subs (exec (on_close (mkSub 1 ∅ 0)) st').
Proof.
  intros q st'.
  assert (Hq : quotes one_gone !! "EURUSD" = Some q) by reflexivity.
  split; [exact Hq|].
  destruct (write_failure_isolated "EURUSD" q one_gone Hq)
    as (Hsent & Hsubs & _ & Hstays & Hclose).
  split; [|split; [exact Hsubs|split]].
  - apply (Hsent (mkSub 2 ∅ 1)).
    + apply list_elem_of_further, list_elem_of_here.
    + by left.
    + intros Hin. cbn [gone one_gone res] in Hin.
      apply elem_of_singleton in Hin. discriminate.
  - apply Hstays; [apply list_elem_of_here|].
    repeat (apply Forall_cons; split; [intros s [= <-]; discriminate|]).
    apply Forall_nil_2.
  - destruct (Hclose (mkSub 1 ∅ 0)) as [Hleft _].
    intros Hin. apply Hleft in Hin as [_ Hne]. by apply Hne.
Defined.

(** In [one_gone] the write of a broadcast to the first subscriber is
    lost, and after the broadcast that subscriber is still in the
    registry with its interval live: a lost write removes nothing. *)
Lemma lost_write_keeps_subscriber : ¬ failed_write_removes "EURUSD" one_gone.
Proof.
  intros Hall.
  destruct (Hall (mkSub 1 ∅ 0)
              (mkWrite 1 (Update (wall 0) "EURUSD"
                            (mkQuote (Some (of_Z 1)) None None (of_Z 5))) Lost))
    as [Hout _].
  - apply list_elem_of_here.
  - apply list_elem_of_here.
  - reflexivity.
  - reflexivity.
  - apply Hout. rewrite pushQuote_subs. apply list_elem_of_here.
Qed.

Lemma watchdog_fires_when_stale_sample :
  (exited (silent_since 1699999879000) = None
   ∧ STALE_MS cfg = of_Z 120000
   ∧ elapsed (silent_since 1699999879000) = of_Z 121000
   ∧ exited (exec (watchdog false) (silent_since 1699999879000)) = Some 1%Z)
  ∧ (elapsed (silent_since 1699999881000) = of_Z 119000
     ∧ exited (exec (watchdog false) (silent_since 1699999881000)) = None)
  ∧ (@STALE_MS (@cfg watchdog_off) = zero
     ∧ exec (@watchdog watchdog_off false) (silent_since 0) = silent_since 0).
Proof.
  assert (Hlive : ∀ t, exited (silent_since t) = None) by reflexivity.
  assert (Hcfg : STALE_MS cfg = of_Z 120000) by reflexivity.
  assert (Hold : elapsed (silent_since 1699999879000) = of_Z 121000)
    by (vm_compute; reflexivity).
  assert (Hnew : elapsed (silent_since 1699999881000) = of_Z 119000)
    by (vm_compute; reflexivity).
  split; [|split].
  - repeat (split; [done|]).
    destruct (watchdog_fires_when_stale false (silent_since 1699999879000) (Hlive _))
      as (_ & _ & Hfire & _).
    by apply Hfire.
  - split; [done|].
    destruct (watchdog_fires_when_stale false (silent_since 1699999881000) (Hlive _))
      as (_ & _ & _ & Hquiet & _).
    by apply Hquiet.
  - split; [reflexivity|].
    destruct (watchdog_fires_when_stale (RT := watchdog_off) false (silent_since 0)
                (Hlive _)) as (_ & _ & _ & _ & Hoff).
    by apply Hoff.
Defined.

Lemma stored_time_sample :
  ("EURUSD" ≠ ""
   ∧ coerce timed_event
     = Normal (Some (mkCoerced "EURUSD" NaN NaN NaN (of_Z 1699999999999)))
   ∧ coerce epoch_event = Normal (Some (mkCoerced "EURUSD" (of_Z 1) NaN NaN zero)))
  ∧ time <$> quotes (exec (touchQuote "EURUSD" (mkPatch None None None (Some zero)))
                       initial) !! "EURUSD"
    = Some (wall 0)
  ∧ time <$> quotes (exec (processQuoteLikeEvent timed_event) initial) !! "EURUSD"
    = Some (of_Z 1699999999999)
  ∧ time <$> quotes (exec (processQuoteLikeEvent epoch_event) initial) !! "EURUSD"
    = Some (wall 0).
Proof.
  assert (H0 : "EURUSD" ≠ "") by discriminate.
  assert (H1 : coerce timed_event
               = Normal (Some (mkCoerced "EURUSD" NaN NaN NaN (of_Z 1699999999999))))
    by reflexivity.
  assert (H2 : coerce epoch_event
               = Normal (Some (mkCoerced "EURUSD" (of_Z 1) NaN NaN zero)))
    by reflexivity.
  split; [done|]. split; [|split].
  - destruct (stored_time timed_event (mkCoerced "EURUSD" NaN NaN NaN zero) "EURUSD"
                (mkPatch None None None (Some zero)) initial) as [Hmerge _].
    exact (Hmerge H0).
  - destruct (stored_time timed_event
                (mkCoerced "EURUSD" NaN NaN NaN (of_Z 1699999999999)) "EURUSD"
                (mkPatch None None None None) initial) as [_ Hevent].
    destruct (Hevent H1) as (t & Ht & _ & Htime).
    vm_compute in Ht. injection Ht as <-. exact Htime.
  - destruct (stored_time epoch_event (mkCoerced "EURUSD" (of_Z 1) NaN NaN zero)
                "EURUSD" (mkPatch None None None None) initial) as [_ Hevent].
    destruct (Hevent H2) as (t & Ht & _ & Htime).
    vm_compute in Ht. injection Ht as <-. exact Htime.
Defined.

(** The event [epoch_event] carries the number 0 as its time; the
    record stored for it carries the clock reading instead. *)
Lemma zero_time_is_replaced : ¬ numeric_time_kept epoch_event initial.
Proof.
  intros Hall. unfold numeric_time_kept in Hall.
  assert (Hstored : time <$> quotes (exec (processQuoteLikeEvent epoch_event) initial)
                      !! "EURUSD" = Some zero)
    by (apply Hall; [reflexivity|reflexivity|discriminate]).
  vm_compute in Hstored. discriminate.
Qed.

Lemma unresolved_symbol_is_ignored_sample :
  (∀ k, k ∈ symbol_keys → ¬ has_value (quote_body news_event) k)
  ∧ exec (processQuoteLikeEvent news_event) one_gone = one_gone
  ∧ eval (processQuoteLikeEvent news_event) one_gone = Normal tt.
Proof.
  assert (Hno : ∀ k, k ∈ symbol_keys → ¬ has_value (quote_body news_event) k).
  { intros k Hk (v & Hv & _). unfold symbol_keys in Hk.
    repeat (apply elem_of_cons in Hk as [->|Hk]; [discriminate|]).
    by apply elem_of_nil in Hk. }
  split; [exact Hno|]. exact (unresolved_symbol_is_ignored news_event one_gone Hno).
Defined.

Lemma parseSymbolsParam_tokens_sample :
  let toks := [" EURUSD "; ""; "GBPUSD"] in
  (comma_tokens " EURUSD ,,GBPUSD" toks ∧ all_ws "  " = true)
  ∧ (∃ f, parseSymbolsParam (JStr " EURUSD ,,GBPUSD") = Normal f ∧ "EURUSD" ∈ f)
  ∧ parseSymbolsParam (JStr "  ") = Normal ∅.
Proof.
  intros toks.
  assert (Htoks : comma_tokens " EURUSD ,,GBPUSD" toks).
  { split; [reflexivity|]. split; [|discriminate].
    repeat (apply Forall_cons; split; [reflexivity|]). apply Forall_nil_2. }
  assert (Hws : all_ws "  " = true) by reflexivity.
  destruct parseSymbolsParam_tokens as (Htok & _ & _ & _ & _ & Hblank & _).
  split; [done|]. split; [|by apply Hblank].
  destruct (Htok _ toks Htoks) as (f & Hf & Hmem).
  exists f. split; [exact Hf|].
  apply Hmem. split; [discriminate|].
  exists " EURUSD ". split; [apply list_elem_of_here|].
  exists " ", " ". split; [reflexivity|]. split; [reflexivity|]. split; [reflexivity|].
  split; intros c [= <-]; reflexivity.
Defined.

(** C8 at a store that holds the symbol [__proto__].  After the
    upstream event [proto_event] the store holds one record, under
    [__proto__]; the state route, asked without filter, answers with no
    quote and a count of zero. *)
Theorem state_route_misses_proto :
  let st := exec (on_stream proto_event) initial in
  (quotes st !! "__proto__" = Some (mkQuote (Some (of_Z 1)) None None (wall 1))
   ∧ size (quotes st) = 1)
  ∧ issued st (exec (get_quotes_state plain_request) st)
    = [mkWrite 7 (StateJson (wall 4) 0 ∅) Sent]
  ∧ issued proto_store (exec (get_quotes_state plain_request) proto_store)
    = [mkWrite 7 (StateJson (wall 0) 0 ∅) Sent].
Proof. repeat split; vm_compute; reflexivity. Qed.

(** ** The further properties on sample data *)

Lemma first_finds_first_present_sample :
  present (JStr "EURUSD") = true
  ∧ first aliased_body symbol_keys = JStr "EURUSD"
  ∧ first aliased_body bid_keys = JUndef.
Proof.
  destruct (first_finds_first_present aliased_body symbol_keys) as (Hfound & _).
  destruct (first_finds_first_present aliased_body bid_keys) as (_ & Hnone & _).
  split; [reflexivity|]. split.
  - apply (Hfound (JStr "EURUSD")); [reflexivity|].
    exists ["symbol"; "instrument"; "symbolName"], "s", ["Symbol"].
    split; [reflexivity|]. split; [reflexivity|].
    repeat (apply Forall_cons; split; [reflexivity|]). apply Forall_nil_2.
  - apply Hnone. repeat (apply Forall_cons; split; [reflexivity|]). apply Forall_nil_2.
Defined.

Lemma store_stays_ok_sample :
  store_ok initial
  ∧ store_ok (exec (run [Stream partial_event; Stream eurusd_tick; Stream news_event])
                initial).
Proof.
  assert (Hinit : store_ok initial) by (intros s q Hq; discriminate).
  split; [exact Hinit|]. by apply store_stays_ok.
Defined.

Lemma one_writer_each_sample :
  quotes (exec (handle (GetQuotesState plain_request)) proto_store) = quotes proto_store
  ∧ lastConnectError (exec (handle (Stream eurusd_tick)) initial) = JStr ""
  ∧ subs (exec (handle (WatchdogTick false)) one_gone) = subs one_gone
  ∧ exited (exec (handle (Stream eurusd_tick)) initial) = None
  ∧ exited (exec (handle (Stream unprintable_bid_event)) initial) = Some 1%Z
  ∧ exited (exec (handle Uncaught) initial) = Some 1%Z.
Proof.
  destruct (one_writer_each (GetQuotesState plain_request) proto_store) as (Hq & _).
  destruct (one_writer_each (Stream eurusd_tick) initial) as (_ & Hc & _ & He & _).
  destruct (one_writer_each (WatchdogTick false) one_gone) as (_ & _ & Hs & _).
  destruct (one_writer_each (Stream unprintable_bid_event) initial)
    as (_ & _ & _ & _ & Hthrown).
  destruct (one_writer_each Uncaught initial) as (_ & _ & _ & _ & Hforeign).
  split; [by apply Hq|]. split; [by apply Hc|]. split; [by apply Hs|].
  split; [by apply He|]. split; [by apply Hthrown|by apply Hforeign].
Defined.

Lemma store_only_grows_sample :
  let events := [Stream eurusd_tick; Stream news_event; Stream gbpusd_tick;
                 Stream eurusd_tick] in
  is_Some (quotes one_gone !! "EURUSD")
  ∧ is_Some (quotes (exec (run events) one_gone) !! "EURUSD")
  ∧ h_symbols (eval get_health (exec (run events) initial)) = 2
  ∧ h_symbols (eval get_health (exec (run [Stream unprintable_bid_event]) initial)) = 0.
Proof.
  intros events.
  assert (Hin : is_Some (quotes one_gone !! "EURUSD")) by (eexists; reflexivity).
  destruct (store_only_grows events one_gone) as (_ & Hkeeps & _).
  destruct (store_only_grows events initial) as (_ & _ & _ & Hcount & _).
  destruct (store_only_grows [Stream unprintable_bid_event] initial)
    as (_ & _ & _ & Hnone & _).
  split; [exact Hin|]. split; [by apply Hkeeps|]. split.
  - rewrite Hcount. vm_compute. reflexivity.
  - rewrite Hnone. vm_compute. reflexivity.
Defined.

Lemma merges_are_per_symbol_sample :
  "EURUSD" ≠ ""
  ∧ let st' := exec (run_merges sample_merges) initial in
    stored bid st' "EURUSD" = Some (of_Z 1)
    ∧ stored ask st' "EURUSD" = Some (of_Z 2)
    ∧ stored last st' "EURUSD" = None.
Proof.
  assert (Hne : "EURUSD" ≠ "") by discriminate.
  split; [exact Hne|].
  destruct (merges_are_per_symbol "EURUSD" sample_merges initial Hne)
    as (Hbid & Hask & Hlast & _).
  split; [exact Hbid|]. split; [exact Hask|exact Hlast].
Defined.

Lemma pushQuote_once_each_sample :
  is_Some (quotes filtered_pair !! "GBPUSD")
  ∧ w_res <$> issued filtered_pair (exec (pushQuote "GBPUSD") filtered_pair) = [2]
  ∧ exec (pushQuote "EURUSD") filtered_pair = filtered_pair.
Proof.
  assert (Hin : is_Some (quotes filtered_pair !! "GBPUSD")) by (eexists; reflexivity).
  destruct (pushQuote_once_each "GBPUSD" filtered_pair) as (Hstored & _).
  destruct (pushQuote_once_each "EURUSD" filtered_pair) as (_ & Hnone).
  split; [exact Hin|]. split.
  - destruct (Hstored Hin) as (Hto & _). rewrite Hto. reflexivity.
  - apply Hnone. reflexivity.
Defined.

Lemma merge_is_broadcast_sample :
  "EURUSD" ≠ ""
  ∧ let patch := mkPatch None None None None in
    let st' := exec (touchQuote "EURUSD" patch) one_gone in
    ∃ q, quotes st' !! "EURUSD" = Some q
      ∧ (∃ o, mkWrite 2 (Update (wall 1) "EURUSD" q) o ∈ issued one_gone st').
Proof.
  assert (Hne : "EURUSD" ≠ "") by discriminate.
  split; [exact Hne|]. intros patch st'.
  destruct (merge_is_broadcast "EURUSD" patch one_gone) as (Hsent & _).
  destruct (Hsent Hne) as (q & Hq & _ & Heach).
  exists q. split; [exact Hq|].
  apply (Heach (mkSub 2 ∅ 1)).
  - apply list_elem_of_further, list_elem_of_here.
  - by left.
Defined.

Lemma token_gate_sample :
  (provided_token (RT := token_runtime) token_request = Normal "s3cret"
   ∧ "s3cret" ≠ "" ∧ truthy (q_token plain_request) = false
   ∧ truthy (h_read_token plain_request) = false)
  ∧ eval (checkToken (RT := token_runtime) token_request) initial = Normal true
  ∧ eval (checkToken (RT := token_runtime) plain_request) initial = Normal false
  ∧ exec (get_quotes_stream (RT := token_runtime) plain_request) initial
    = set_wire (fun w => w ++ [mkWrite 7 Unauthorized Sent]) initial.
Proof.
  assert (Hprov : provided_token (RT := token_runtime) token_request = Normal "s3cret")
    by reflexivity.
  assert (Hset : "s3cret" ≠ "") by discriminate.
  destruct (token_gate (RT := token_runtime) token_request initial) as (Hiff & _).
  destruct (token_gate (RT := token_runtime) plain_request initial)
    as (_ & _ & Hnone & _ & Hrefused & _).
  assert (Hno : eval (checkToken (RT := token_runtime) plain_request) initial
                = Normal false)
    by (apply Hnone; [exact Hset|reflexivity|reflexivity]).
  split; [done|]. split; [apply Hiff; by right|]. split; [exact Hno|].
  by destruct (Hrefused Hno) as [Hstream _].
Defined.

Lemma stream_opens_with_snapshot_sample :
  (authorized eurusd_request = Normal true
   ∧ requested_filter eurusd_request = Normal {[ "EURUSD" ]})
  ∧ let st' := exec (get_quotes_stream eurusd_request) one_gone in
    (∃ all, issued one_gone st'
            = [mkWrite 8 (Hello true "LIVE") Sent;
               mkWrite 8 (SnapshotAll (wall 0) all) Sent]
       ∧ all !! "EURUSD" = quotes one_gone !! "EURUSD")
    ∧ subs st' = subs one_gone ++ [mkSub 8 {[ "EURUSD" ]} 2].
Proof.
  assert (Hok : authorized eurusd_request = Normal true) by reflexivity.
  assert (Hf : requested_filter eurusd_request = Normal {[ "EURUSD" ]})
    by (vm_compute; reflexivity).
  split; [done|]. intros st'.
  destruct (stream_opens_with_snapshot eurusd_request one_gone Hok) as [Hopen _].
  destruct (Hopen _ Hf) as ((all & Hissued & _ & Hall) & Hsubs & _).
  split.
  - exists all. split; [exact Hissued|].
    rewrite Hall by discriminate. apply decide_True. right. reflexivity.
  - exact Hsubs.
Defined.

Lemma updates_only_to_subscribers_sample :
  ((8 ∉ res <$> subs one_gone)
   ∧ Forall (not_opening 8) [Stream eurusd_tick; GetQuotesState eurusd_request;
                             Stream gbpusd_tick])
  ∧ ∀ w, w ∈ issued one_gone
               (exec (run [Stream eurusd_tick; GetQuotesState eurusd_request;
                           Stream gbpusd_tick]) one_gone) →
         w_res w = 8 → is_update (w_frame w) = false.
Proof.
  assert (Hout : 8 ∉ res <$> subs one_gone).
  { intros Hin. repeat (apply elem_of_cons in Hin as [Hin|Hin]; [discriminate|]).
    by apply elem_of_nil in Hin. }
  assert (Hevents : Forall (not_opening 8)
            [Stream eurusd_tick; GetQuotesState eurusd_request; Stream gbpusd_tick]).
  { repeat (apply Forall_cons; split; [intros req; discriminate|]). apply Forall_nil_2. }
  split; [done|].
  destruct updates_only_to_subscribers as (_ & Hnone & _).
  by apply Hnone.
Defined.

Lemma close_is_clean_sample :
  ((2 ∉ res <$> subs (exec (on_close (mkSub 2 ∅ 1)) one_gone))
   ∧ (1 ∉ timers (exec (on_close (mkSub 2 ∅ 1)) one_gone)))
  ∧ exec (on_close (mkSub 2 ∅ 1)) (exec (on_close (mkSub 2 ∅ 1)) one_gone)
    = exec (on_close (mkSub 2 ∅ 1)) one_gone
  ∧ w_res <$> issued (exec (on_close (mkSub 2 ∅ 1)) one_gone)
                (exec (pushQuote "EURUSD") (exec (on_close (mkSub 2 ∅ 1)) one_gone))
    = [1].
Proof.
  destruct (close_is_clean (mkSub 2 ∅ 1) one_gone) as (Hagain & _ & _ & _ & _ & Hothers).
  destruct (close_is_clean (mkSub 2 ∅ 1) (exec (on_close (mkSub 2 ∅ 1)) one_gone))
    as (_ & Habsent & _).
  assert (Hres : 2 ∉ res <$> subs (exec (on_close (mkSub 2 ∅ 1)) one_gone)).
  { intros Hin. repeat (apply elem_of_cons in Hin as [Hin|Hin]; [discriminate|]).
    by apply elem_of_nil in Hin. }
  assert (Hping : 1 ∉ timers (exec (on_close (mkSub 2 ∅ 1)) one_gone))
    by apply on_close_timers.
  split; [done|]. split; [exact (Habsent Hres Hping)|].
  rewrite Hothers. reflexivity.
Defined.

Lemma registry_stays_ok_sample :
  let events := [GetQuotesStream eurusd_request; Stream eurusd_tick;
                 GetQuotesStream plain_request;
                 Close (mkSub 8 {[ "EURUSD" ]} 0); Close (mkSub 8 {[ "EURUSD" ]} 0)] in
  (registry_ok initial ∧ run_ok initial events)
  ∧ registry_ok (exec (run events) initial)
  ∧ subs (exec (run events) initial) = [mkSub 7 ∅ 1]
  ∧ timers (exec (run events) initial) = {[ 1 ]}.
Proof.
  intros events.
  assert (Hinit : registry_ok initial).
  { split; [apply NoDup_nil_2|]. split; [apply NoDup_nil_2|]. split; [reflexivity|].
    intros t Ht. by apply not_elem_of_empty in Ht. }
  assert (Hrun : run_ok initial events).
  { vm_compute. split; [apply not_elem_of_nil|]. split; [exact I|]. split.
    { intros Hin. apply list_elem_of_singleton in Hin. discriminate. }
    split; [left; apply list_elem_of_here|]. split; [|exact I].
    right. split.
    - intros Hin. apply list_elem_of_singleton in Hin. discriminate.
    - intros Hin. discriminate. }
  split; [done|]. split; [by apply registry_stays_ok|].
  split; vm_compute; reflexivity.
Defined.

Lemma every_event_feeds_watchdog_sample :
  (Num.truthy (wall 0) = true ∧ quote_like news_event = Normal false
   ∧ quote_like unprintable_type_event = Throw TypeError)
  ∧ lastBrandEventAt (exec (handle (Stream news_event)) one_gone) = wall 0
  ∧ elapsed (exec (handle (Stream news_event)) one_gone) = of_Z 1
  ∧ exec (handle (Stream news_event)) one_gone = stamped one_gone
  ∧ exec (handle (Stream unprintable_type_event)) one_gone
    = set_exited 1 (stamped one_gone).
Proof.
  assert (Hnow : Num.truthy (wall 0) = true) by reflexivity.
  assert (Hnoise : quote_like news_event = Normal false) by reflexivity.
  assert (Hthrown : quote_like unprintable_type_event = Throw TypeError) by reflexivity.
  destruct (every_event_feeds_watchdog news_event one_gone) as (Hstamp & Hage & Hrest & _).
  destruct (every_event_feeds_watchdog unprintable_type_event one_gone)
    as (_ & _ & _ & _ & Hexit & _).
  split; [done|]. split; [exact Hstamp|]. split; [|split].
  - rewrite (Hage Hnow). vm_compute. reflexivity.
  - exact (Hrest Hnoise).
  - exact (Hexit _ Hthrown).
Defined.

Lemma quote_like_events_sample :
  (type_tag eurusd_tick = Normal "tick"
   ∧ quote_like eurusd_tick = Normal true
   ∧ has_string (js_or (opt_member unprintable_type_event "type") (JStr "")) = false)
  ∧ contains_ci "TICK" "tick"
  ∧ on_stream eurusd_tick initial = processQuoteLikeEvent eurusd_tick (stamped initial)
  ∧ ∃ e, quote_like unprintable_type_event = Throw e.
Proof.
  assert (Htag : type_tag eurusd_tick = Normal "tick") by reflexivity.
  assert (Hlike : quote_like eurusd_tick = Normal true) by reflexivity.
  assert (Hno : has_string (js_or (opt_member unprintable_type_event "type") (JStr ""))
                = false) by reflexivity.
  destruct (quote_like_events eurusd_tick) as (Hiff & _ & _ & Hhand & _).
  destruct (quote_like_events unprintable_type_event) as (_ & _ & Hthrows & _).
  split; [done|]. split; [|split].
  - exists "", "tick", "". split; reflexivity.
  - exact (Hhand initial Hlike).
  - by apply Hthrows.
Defined.


Lemma snapshot_within_store_sample :
  (authorized plain_request = Normal true ∧ requested_filter plain_request = Normal ∅)
  ∧ ∃ out, issued proto_store (exec (get_quotes_state plain_request) proto_store)
           = [mkWrite 7 (StateJson (wall 0) (size out) out) Sent]
      ∧ out ⊆ quotes proto_store
      ∧ (size out ≤ 1)%nat.
Proof.
  assert (Hok : authorized plain_request = Normal true) by reflexivity.
  assert (Hf : requested_filter plain_request = Normal ∅) by reflexivity.
  split; [done|].
  destruct (snapshot_within_store plain_request ∅ proto_store Hok Hf)
    as (out & Hissued & Hsub & Hsize & _).
  exists out. split; [exact Hissued|]. split; [exact Hsub|]. exact Hsize.
Defined.


Lemma parsed_filter_is_normal_sample :
  Forall clean_token ["EURUSD"; "GBP USD"]
  ∧ parseSymbolsParam (JStr "EURUSD,GBP USD") = Normal {[ "EURUSD"; "GBP USD" ]}
  ∧ parseSymbolsParam (JArr [JStr "EURUSD"; JStr "GBP USD"])
    = Normal {[ "EURUSD"; "GBP USD" ]}
  ∧ clean_token "EURUSD".
Proof.
  assert (Hclean : Forall clean_token ["EURUSD"; "GBP USD"]).
  { repeat (apply Forall_cons; split;
            [split; [discriminate|]; split; [reflexivity|];
             split; intros c [= <-]; reflexivity|]).
    apply Forall_nil_2. }
  destruct parsed_filter_is_normal as (Helem & Hlist & _).
  destruct (Hlist _ Hclean) as (Hjoin & Harr).
  split; [exact Hclean|]. split; [|split].
  - etransitivity; [exact Hjoin|]. vm_compute. reflexivity.
  - etransitivity; [exact Harr|]. vm_compute. reflexivity.
  - apply (Helem (JStr " EURUSD ,") {[ "EURUSD" ]}); [vm_compute; reflexivity|].
    by apply elem_of_singleton.
Defined.

Lemma unclean_symbol_needs_no_filter_sample :
  (¬ clean_token " EURUSD"
   ∧ parseSymbolsParam (JStr " EURUSD") = Normal {[ "EURUSD" ]}
   ∧ parseSymbolsParam JUndef = Normal ∅)
  ∧ skips {[ "EURUSD" ]} " EURUSD" = true
  ∧ skips ∅ " EURUSD" = false.
Proof.
  assert (Hunclean : ¬ clean_token " EURUSD").
  { intros (_ & _ & Hfirst & _). by specialize (Hfirst " "%char eq_refl). }
  assert (Hone : parseSymbolsParam (JStr " EURUSD") = Normal {[ "EURUSD" ]})
    by (vm_compute; reflexivity).
  assert (Hnone : parseSymbolsParam JUndef = Normal ∅) by reflexivity.
  split; [done|]. split.
  - rewrite (unclean_symbol_needs_no_filter " EURUSD" (JStr " EURUSD") _ Hunclean Hone).
    vm_compute. reflexivity.
  - rewrite (unclean_symbol_needs_no_filter " EURUSD" JUndef _ Hunclean Hnone).
    vm_compute. reflexivity.
Defined.


Lemma configuration_defaults_sample :
  (cfg (Runtime := odd_runtime) = load_config (RT := odd_runtime) odd_env
   ∧ odd_env "STALE_MS" = Some "two minutes" ∧ "two minutes" ≠ ""
   ∧ Num.truthy (StringToNumber (Runtime := odd_runtime) "two minutes") = false
   ∧ odd_env "READ_TOKEN" = None)
  ∧ exec (watchdog (RT := odd_runtime) false) (silent_since 0) = silent_since 0
  ∧ checkToken (RT := odd_runtime) plain_request initial = (Normal true, initial).
Proof.
  assert (Hcfg : cfg (Runtime := odd_runtime) = load_config (RT := odd_runtime) odd_env)
    by reflexivity.
  assert (Hne : "two minutes" ≠ "") by discriminate.
  destruct (configuration_defaults (RT := odd_runtime) odd_env Hcfg)
    as (_ & Hoff & Hopen & _).
  split; [done|]. split.
  - by apply (Hoff "two minutes").
  - apply Hopen. by left.
Defined.
